(** * Verification of the keyboard-sounds audio event pipeline

    Shallow embedding of [SFMLSoundPlayer] (pending-request deque, active
    voices, buffer cache, worker loop, volume), of [KeyboardHookManager]
    (hook procedure, debounce, key filter, predictive prefetch, singleton)
    and of [SoundManager] (key types, sound categories, loading). *)

From Stdlib Require Import String Ascii ZArith Lia Sorted Bool.
From stdpp Require Import base list gmap strings.

Module Player.

(** [struct PendingSound { std::string path; bool highPriority; }] *)
Record PendingSound := mkPendingSound { path : string; highPriority : bool }.

(** [pendingSounds_.size() > 64] *)
Definition MAX_PENDING : nat := 64.

(** [static constexpr int MAX_CONCURRENT_SOUNDS = 32;] *)
Definition MAX_CONCURRENT_SOUNDS : nat := 32.

(** [static constexpr int MAX_CACHE_SIZE = 100;] *)
Definition MAX_CACHE_SIZE : nat := 100.

(** ** The pending-request deque ([std::deque<PendingSound>]).
    The code only inspects the [highPriority] field of an item, so the
    deque operations are written over any item type with a priority
    projection; the player instantiates them with [PendingSound]. *)
Section Deque.
Context {Item : Type} (hp : Item -> bool).

(** playSound, lines 54-58: skip the leading high-priority items and
    insert in front of the first low-priority one. *)
Fixpoint insert_high (x : Item) (q : list Item) : list Item :=
  match q with
  | [] => [x]
  | y :: q' => if hp y then y :: insert_high x q' else x :: q
  end.

(** playSound, lines 52-62. *)
Definition insert_by_priority (x : Item) (q : list Item) : list Item :=
  if hp x then insert_high x q else q ++ [x].

(** [std::find_if(..., !highPriority)] followed by [erase(it)];
    [None] when [find_if] returns [end()]. *)
Fixpoint erase_first_low (q : list Item) : option (list Item) :=
  match q with
  | [] => None
  | y :: q' =>
      if hp y then option_map (cons y) (erase_first_low q') else Some q'
  end.

(** [pendingSounds_.pop_back()] *)
Definition pop_back (q : list Item) : list Item := removelast q.

(** playSound, lines 64-76: the overflow policy. *)
Definition limit_queue (q : list Item) : list Item :=
  if Nat.ltb MAX_PENDING (length q) then
    match erase_first_low q with
    | Some q' => q'
    | None => match q with [] => q | _ :: _ => pop_back q end
    end
  else q.

(** The locked block of playSound, lines 45-77. *)
Definition enqueue (x : Item) (q : list Item) : list Item :=
  limit_queue (insert_by_priority x q).

(** processSoundQueue, lines 157-164: [front()] then [pop_front()]. *)
Definition pop_front (q : list Item) : option (Item * list Item) :=
  match q with
  | [] => None
  | x :: q' => Some (x, q')
  end.
End Deque.

(** [bool SFMLSoundPlayer::playSound(const std::string&, bool)], acting on
    the pending queue; returns the result and the new queue. *)
Definition playSound (filePath : string) (hp : bool) (q : list PendingSound)
  : bool * list PendingSound :=
  if String.eqb filePath EmptyString then (false, q)
  else (true, enqueue highPriority (mkPendingSound filePath hp) q).

(** Operations on the pending queue: a [playSound] call, or the worker
    taking the front of the queue. *)
Inductive qop :=
| QPlay (p : string) (h : bool)
| QDeq.

Fixpoint qrun (ops : list qop) (q : list PendingSound) : list PendingSound :=
  match ops with
  | [] => q
  | QPlay p h :: ops' => qrun ops' (snd (playSound p h q))
  | QDeq :: ops' =>
      match pop_front q with
      | None => qrun ops' q
      | Some (_, q') => qrun ops' q'
      end
  end.

(** Requests serviced by the worker along a run, with ghost labels: every
    request carries the index of the operation that submitted it, and every
    serviced request the index of the operation that dequeued it. The
    deque code is the same [enqueue]/[pop_front], at item type
    [nat * PendingSound]. *)
Record Serviced := mkServiced
  { s_label : nat; s_step : nat; s_req : PendingSound }.

Definition lhp (e : nat * PendingSound) : bool := highPriority (snd e).

Fixpoint lrun (n : nat) (q : list (nat * PendingSound)) (ops : list qop)
  : list Serviced :=
  match ops with
  | [] => []
  | QPlay p h :: ops' =>
      if String.eqb p EmptyString then lrun (S n) q ops'
      else lrun (S n) (enqueue lhp (n, mkPendingSound p h) q) ops'
  | QDeq :: ops' =>
      match pop_front q with
      | None => lrun (S n) q ops'
      | Some ((l, x), q') => mkServiced l n x :: lrun (S n) q' ops'
      end
  end.

(** The same run without labels: the sequence of serviced requests. *)
Fixpoint serviced (ops : list qop) (q : list PendingSound) : list PendingSound :=
  match ops with
  | [] => []
  | QPlay p h :: ops' => serviced ops' (snd (playSound p h q))
  | QDeq :: ops' =>
      match pop_front q with
      | None => serviced ops' q
      | Some (x, q') => x :: serviced ops' q'
      end
  end.


(** ** Buffers, voices and the player state *)

(** The part of [sf::SoundBuffer] the player reads:
    [getDuration().asMilliseconds()]. *)
Record SoundBuffer := mkSoundBuffer { duration_ms : Z }.

(** [struct SoundInstance]; the [std::shared_ptr<sf::Sound>] is represented
    by the identity [sound] of the [sf::Sound] object it owns. Times are
    [steady_clock] readings in milliseconds. *)
Record SoundInstance := mkSoundInstance
  { sound : nat; expirationTime : Z; inst_path : string; inst_high : bool }.

(** Observable effects on the audio back end. *)
Inductive AudioEvent :=
| EvDecode (p : string)          (* [buffer->loadFromFile(p)] *)
| EvStop (s : nat)               (* [sound->stop()] *)
| EvPlay (s : nat) (p : string) (vol : Z).  (* [setVolume]; [play()] *)

Record PlayerState := mkPlayerState
  { pendingSounds : list PendingSound;
    activeSounds : list SoundInstance;
    soundBuffers : gmap string SoundBuffer;
    preloadTasks : list string;   (* low-priority preloads not yet run *)
    volume : Z;
    next_sound : nat;             (* identity of the next [sf::Sound] *)
    events : list AudioEvent }.

(** [SFMLSoundPlayer()]: [volume_(50)], empty containers. *)
Definition initPlayer : PlayerState :=
  mkPlayerState [] [] ∅ [] 50 0 [].

Definition set_pending (q : list PendingSound) (st : PlayerState) : PlayerState :=
  mkPlayerState q (activeSounds st) (soundBuffers st) (preloadTasks st)
    (volume st) (next_sound st) (events st).

Definition set_active (a : list SoundInstance) (st : PlayerState) : PlayerState :=
  mkPlayerState (pendingSounds st) a (soundBuffers st) (preloadTasks st)
    (volume st) (next_sound st) (events st).

Definition set_cache (c : gmap string SoundBuffer) (st : PlayerState) : PlayerState :=
  mkPlayerState (pendingSounds st) (activeSounds st) c (preloadTasks st)
    (volume st) (next_sound st) (events st).

Definition set_tasks (t : list string) (st : PlayerState) : PlayerState :=
  mkPlayerState (pendingSounds st) (activeSounds st) (soundBuffers st) t
    (volume st) (next_sound st) (events st).

Definition emit (e : list AudioEvent) (st : PlayerState) : PlayerState :=
  mkPlayerState (pendingSounds st) (activeSounds st) (soundBuffers st)
    (preloadTasks st) (volume st) (next_sound st) (events st ++ e).

(** [playSound] on the whole player state. *)
Definition playSoundS (filePath : string) (hp : bool) (st : PlayerState)
  : bool * PlayerState :=
  let '(r, q) := playSound filePath hp (pendingSounds st) in
  (r, set_pending q st).

Section Backend.
(** The audio decoder: [loadFromFile(path)], [None] on failure. *)
Variable loadFromFile : string -> option SoundBuffer.
(** The key at [soundBuffers_.begin()]: the iteration order of the
    [std::unordered_map] is implementation-defined. *)
Variable cache_begin : gmap string SoundBuffer -> option string.

(** The eviction-then-assignment used at the three insertion sites
    (lines 101-107, 120-126, 218-226). *)
Definition cache_insert (p : string) (b : SoundBuffer)
    (c : gmap string SoundBuffer) : gmap string SoundBuffer :=
  let c1 :=
    if Nat.leb MAX_CACHE_SIZE (size c) then
      match cache_begin c with
      | Some k => delete k c
      | None => c
      end
    else c in
  <[p := b]> c1.

(** processSoundQueue, lines 194-228: cache lookup, load on a miss.
    Returns the buffer, the new cache and whether a decode ran. *)
Definition getBuffer (p : string) (c : gmap string SoundBuffer)
  : option SoundBuffer * gmap string SoundBuffer * bool :=
  match c !! p with
  | Some b => (Some b, c, false)
  | None =>
      match loadFromFile p with
      | None => (None, c, true)
      | Some b => (Some b, cache_insert p b c, true)
      end
  end.

(** [std::find_if(activeSounds_, !highPriority)]: the first low-priority
    voice and the vector without it. *)
Fixpoint take_first_low (a : list SoundInstance)
  : option (SoundInstance * list SoundInstance) :=
  match a with
  | [] => None
  | v :: a' =>
      if inst_high v then
        match take_first_low a' with
        | Some (w, r) => Some (w, v :: r)
        | None => None
        end
      else Some (v, a')
  end.

(** Lines 172-186: make room for a high-priority sound. The found
    low-priority voice is stopped and erased; otherwise the first
    (oldest) voice is erased. *)
Definition make_room (a : list SoundInstance)
  : list SoundInstance * list AudioEvent :=
  match take_first_low a with
  | Some (v, r) => (r, [EvStop (sound v)])
  | None =>
      match a with
      | [] => (a, [])
      | _ :: r => (r, [])
      end
  end.

(** One iteration of the worker loop of [processSoundQueue] that finds
    the queue non-empty (lines 157-245), at time [now]. *)
Definition processOne (now : Z) (st : PlayerState) : PlayerState :=
  match pop_front (pendingSounds st) with
  | None => st
  | Some (s, q') =>
      let st1 := set_pending q' st in
      let a := activeSounds st1 in
      let room :=
        if Nat.leb MAX_CONCURRENT_SOUNDS (length a) then
          if highPriority s then Some (make_room a) else None
        else Some (a, []) in
      match room with
      | None => st1                               (* [continue] *)
      | Some (a2, evs) =>
          let st2 := emit evs (set_active a2 st1) in
          match getBuffer (path s) (soundBuffers st2) with
          | (None, _, _) =>                       (* [continue] *)
              emit [EvDecode (path s)] st2
          | (Some b, c, dec) =>
              let id := next_sound st2 in
              let inst := mkSoundInstance id (now + (duration_ms b + 200))
                            (path s) (highPriority s) in
              mkPlayerState (pendingSounds st2) (activeSounds st2 ++ [inst]) c
                (preloadTasks st2) (volume st2) (S id)
                (events st2 ++ (if dec then [EvDecode (path s)] else [])
                   ++ [EvPlay id (path s) (volume st2)])
          end
      end
  end.

(** [cleanupFinishedSounds] at time [now]; [stopped] is the
    [getStatus() == Stopped] answer of the back end for each sound. *)
Definition cleanupFinishedSounds (now : Z) (stopped : nat -> bool)
    (st : PlayerState) : PlayerState :=
  set_active
    (filter (fun i => negb (stopped (sound i) || Z.leb (expirationTime i) now))
       (activeSounds st)) st.

(** [stopAllSounds] *)
Definition stopAllSounds (st : PlayerState) : PlayerState :=
  emit (map (fun i => EvStop (sound i)) (activeSounds st))
    (set_active [] (set_pending [] st)).

(** [preloadSound(filePath, highPriority)]. A low-priority preload is
    recorded as a pending background task. *)
Definition preloadSound (filePath : string) (hp : bool) (st : PlayerState)
  : bool * PlayerState :=
  if String.eqb filePath EmptyString then (false, st)
  else match soundBuffers st !! filePath with
  | Some _ => (true, st)
  | None =>
      if hp then
        match loadFromFile filePath with
        | Some b =>
            (true, emit [EvDecode filePath]
                     (set_cache (cache_insert filePath b (soundBuffers st)) st))
        | None => (false, emit [EvDecode filePath] st)
        end
      else (true, set_tasks (preloadTasks st ++ [filePath]) st)
  end.

(** The body of the [std::async] task of a low-priority preload
    (lines 116-130), run for the pending task at index [i]. *)
Definition runPreloadTask (i : nat) (st : PlayerState) : PlayerState :=
  match preloadTasks st !! i with
  | None => st
  | Some p =>
      let st1 := emit [EvDecode p]
                   (set_tasks (delete i (preloadTasks st)) st) in
      match loadFromFile p with
      | Some b => set_cache (cache_insert p b (soundBuffers st1)) st1
      | None => st1
      end
  end.

(** The operations that touch the player, from any thread. *)
Inductive pop :=
| PPlay (p : string) (h : bool)
| PWork (now : Z)
| PCleanup (now : Z) (stopped : nat -> bool)
| PStopAll
| PPreload (p : string) (h : bool)
| PTask (i : nat).

Definition pstep (o : pop) (st : PlayerState) : PlayerState :=
  match o with
  | PPlay p h => snd (playSoundS p h st)
  | PWork now => processOne now st
  | PCleanup now stopped => cleanupFinishedSounds now stopped st
  | PStopAll => stopAllSounds st
  | PPreload p h => snd (preloadSound p h st)
  | PTask i => runPreloadTask i st
  end.

Fixpoint prun (ops : list pop) (st : PlayerState) : PlayerState :=
  match ops with
  | [] => st
  | o :: ops' => prun ops' (pstep o st)
  end.
End Backend.

End Player.

Module Hook.

Local Open Scope Z_scope.

(** Message identifiers and constants of the Win32 hook interface. *)
Definition HC_ACTION : Z := 0.
Definition WM_KEYDOWN : Z := 256.
Definition WM_KEYUP : Z := 257.
Definition WM_SYSKEYDOWN : Z := 260.
Definition WM_SYSKEYUP : Z := 261.
Definition LLKHF_INJECTED : Z := 16.

(** [WORD vkCode = pKey->vkCode;] keeps the low 16 bits of the DWORD. *)
Definition to_WORD (x : Z) : Z := Z.land x 65535.

(** [steady_clock] readings in nanoseconds;
    [duration_cast<milliseconds>] truncates toward zero. *)
Definition ms_since (now t : Z) : Z := Z.quot (now - t) 1000000.

(** [KEY_PROCESSING_INTERVAL = milliseconds(25)] *)
Definition KEY_PROCESSING_INTERVAL : Z := 25.
(** [KEY_HISTORY_LENGTH = 5] *)
Definition KEY_HISTORY_LENGTH : nat := 5%nat.

(** Calls from the hook manager into the [SFMLSoundPlayer]. *)
Inductive Req :=
| ReqPlay (p : string) (hp : bool)      (* [soundPlayer_.playSound(p, hp)] *)
| ReqPreload (p : string) (hp : bool).  (* [soundPlayer_.preloadSound(p, hp)] *)

(** The state used by the hook procedure: the static [pressedKeys_], the
    file-level statics [keyTimestamps], [recentKeys], [keyFollowers], and the
    fields of the (singleton) instance. [std::unordered_set] is a gset and
    its iteration order is that of [elements]. *)
Record HookState := mkHookState
  { pressedKeys : gset Z;
    keyTimestamps : gmap Z Z;
    recentKeys : list Z;
    keyFollowers : gmap Z (gset Z);
    latencyOptimizationLevel : Z;
    keyFilteringEnabled : bool;
    filteredKeys : gset Z;
    has_instance : bool }.            (* [instance_ != nullptr] *)

(** The statics start empty; the constructor sets
    [keyFilteringEnabled_(false)], [latencyOptimizationLevel_(2)]. *)
Definition initHook : HookState :=
  mkHookState ∅ ∅ [] ∅ 2 false ∅ true.

Definition set_pressed (s : gset Z) (st : HookState) : HookState :=
  mkHookState s (keyTimestamps st) (recentKeys st) (keyFollowers st)
    (latencyOptimizationLevel st) (keyFilteringEnabled st) (filteredKeys st)
    (has_instance st).

Definition set_timestamps (m : gmap Z Z) (st : HookState) : HookState :=
  mkHookState (pressedKeys st) m (recentKeys st) (keyFollowers st)
    (latencyOptimizationLevel st) (keyFilteringEnabled st) (filteredKeys st)
    (has_instance st).

Definition set_learning (r : list Z) (f : gmap Z (gset Z)) (st : HookState)
  : HookState :=
  mkHookState (pressedKeys st) (keyTimestamps st) r f
    (latencyOptimizationLevel st) (keyFilteringEnabled st) (filteredKeys st)
    (has_instance st).

Definition set_level (l : Z) (st : HookState) : HookState :=
  mkHookState (pressedKeys st) (keyTimestamps st) (recentKeys st)
    (keyFollowers st) l (keyFilteringEnabled st) (filteredKeys st)
    (has_instance st).

(** [while (recentKeys.size() > n) recentKeys.pop_front();] *)
Definition trim_front (n : nat) (l : list Z) : list Z := drop (length l - n) l.

(** The common keys of [preloadCommonSounds]: 'A'..'Z', '0'..'9',
    VK_SPACE, VK_RETURN, VK_BACK, VK_TAB, VK_LSHIFT, VK_RSHIFT,
    VK_LCONTROL, VK_RCONTROL, VK_ESCAPE, VK_CAPITAL. *)
Definition commonKeys : list Z :=
  map (fun i => 65 + Z.of_nat i) (seq 0%nat 26%nat) ++
  map (fun i => 48 + Z.of_nat i) (seq 0%nat 10%nat) ++
  [32; 13; 8; 9; 160; 161; 162; 163; 27; 20].

Section Catalog.
(** [soundManager_.getRandomSoundForKey(key, isKeyDown)]; the empty
    string when the category has no sound. *)
Variable getRandomSoundForKey : Z -> bool -> string.

(** The two guarded [preloadSound] calls made for one key. *)
Definition preload_key (key : Z) (hp : bool) : list Req :=
  let down := getRandomSoundForKey key true in
  let up := getRandomSoundForKey key false in
  (if String.eqb down EmptyString then [] else [ReqPreload down hp]) ++
  (if String.eqb up EmptyString then [] else [ReqPreload up hp]).

(** [preloadCommonSounds] *)
Definition preloadCommonSounds : list Req :=
  flat_map (fun k => preload_key k true) commonKeys.

(** The range-for of [preloadPredictedKeys] with its [count] guard. *)
Fixpoint prefetch_loop (keys : list Z) (count keysToPreload : nat) (hp : bool)
  : list Req :=
  match keys with
  | [] => []
  | k :: ks =>
      if Nat.leb keysToPreload count then []
      else preload_key k hp ++ prefetch_loop ks (S count) keysToPreload hp
  end.

(** [preloadPredictedKeys(baseKey)] *)
Definition preloadPredictedKeys (baseKey : Z) (st : HookState) : list Req :=
  let L := latencyOptimizationLevel st in
  if Z.ltb L 1 then []
  else match keyFollowers st !! baseKey with
  | None => []
  | Some fs => prefetch_loop (elements fs) 0%nat (Z.to_nat L) (Z.leb 3 L)
  end.

(** [setLatencyOptimization(level)] *)
Definition setLatencyOptimization (level : Z) (st : HookState)
  : HookState * list Req :=
  let l := Z.max 0 (Z.min level 3) in
  let st1 := set_level l st in
  if Z.eqb l 0 then (set_learning [] ∅ st1, [])
  else if Z.eqb l 1 then
    (set_learning (trim_front 3%nat (recentKeys st1)) (keyFollowers st1) st1, [])
  else if Z.eqb l 2 then (st1, [])
  else (st1, preloadCommonSounds).

(** The local [shouldPlay] of [handleKeyDown] (lines 219-230). *)
Definition shouldPlayDown (vk now : Z) (st : HookState) : bool :=
  match keyTimestamps st !! vk with
  | Some t => negb (Z.ltb (ms_since now t) KEY_PROCESSING_INTERVAL)
  | None => true
  end.

(** [handleKeyDown(vkCode)] at time [now]. *)
Definition handleKeyDown (vk now : Z) (st : HookState) : HookState * list Req :=
  let shouldPlay := shouldPlayDown vk now st in
  let st1 := set_timestamps (<[vk := now]> (keyTimestamps st)) st in
  let L := latencyOptimizationLevel st1 in
  let '(st2, pre) :=
    match last (recentKeys st1) with
    | Some prev =>
        if Z.ltb 0 L then
          let f := <[prev := {[vk]} ∪ default ∅ (keyFollowers st1 !! prev)]>
                     (keyFollowers st1) in
          let st' := set_learning (recentKeys st1) f st1 in
          (st', preloadPredictedKeys vk st')
        else (st1, [])
    | None => (st1, [])
    end in
  let st3 :=
    if Z.ltb 0 L then
      set_learning (trim_front KEY_HISTORY_LENGTH (recentKeys st2 ++ [vk]))
        (keyFollowers st2) st2
    else st2 in
  let play :=
    if shouldPlay then
      let f := getRandomSoundForKey vk true in
      if String.eqb f EmptyString then [] else [ReqPlay f true]
    else [] in
  (st3, pre ++ play).

(** [handleKeyUp(vkCode)] at time [now]. *)
Definition handleKeyUp (vk now : Z) (st : HookState) : list Req :=
  let shouldPlay :=
    match keyTimestamps st !! vk with
    | Some t => negb (Z.ltb (ms_since now t) 20)
    | None => true
    end in
  if shouldPlay then
    let f := getRandomSoundForKey vk false in
    if String.eqb f EmptyString then [] else [ReqPlay f false]
  else [].

(** [shouldProcessKey(vkCode)] *)
Definition shouldProcessKey (vk : Z) (st : HookState) : bool :=
  if negb (keyFilteringEnabled st) then true
  else negb (bool_decide (vk ∈ filteredKeys st)).

(** One call of the hook procedure: [nCode], [wParam], the [vkCode] and
    [flags] of the [KBDLLHOOKSTRUCT], and the time of the call. The call
    always ends in [CallNextHookEx]. *)
Record HookEvent := mkHookEvent
  { nCode : Z; wParam : Z; vkCode : Z; flags : Z; time : Z }.

Definition KeyboardHookProc (ev : HookEvent) (st : HookState)
  : HookState * list Req :=
  if negb (Z.eqb (nCode ev) HC_ACTION) || negb (has_instance st) then (st, [])
  else
    let vk := to_WORD (vkCode ev) in
    if negb (shouldProcessKey vk st) then (st, [])
    else
      let injected := negb (Z.eqb (Z.land (flags ev) LLKHF_INJECTED) 0) in
      if Z.eqb (wParam ev) WM_KEYDOWN || Z.eqb (wParam ev) WM_SYSKEYDOWN then
        if injected then (st, [])
        else if bool_decide (vk ∈ pressedKeys st) then (st, [])
        else handleKeyDown vk (time ev) (set_pressed ({[vk]} ∪ pressedKeys st) st)
      else if Z.eqb (wParam ev) WM_KEYUP || Z.eqb (wParam ev) WM_SYSKEYUP then
        if injected then (st, [])
        else
          let st1 := set_pressed (pressedKeys st ∖ {[vk]}) st in
          (st1, handleKeyUp vk (time ev) st1)
      else (st, []).

(** A run of the hook procedure, logging each event with the calls into
    the player it made. *)
Fixpoint hrun (evs : list HookEvent) (st : HookState)
  : HookState * list (HookEvent * list Req) :=
  match evs with
  | [] => (st, [])
  | ev :: evs' =>
      let '(st1, rs) := KeyboardHookProc ev st in
      let '(st2, log) := hrun evs' st1 in
      (st2, (ev, rs) :: log)
  end.
End Catalog.

(** ** The singleton [instance_] *)

(** The process-wide [KeyboardHookManager::instance_] (an object identity)
    and the lines written to [std::cerr]. *)
Record Globals := mkGlobals { instance_ : option nat; cerr : list string }.

(** The singleton part of the constructor (lines 37-42): [self] is the
    identity of the object under construction. The constructor has no
    failure path. *)
Definition construct (self : nat) (g : Globals) : Globals :=
  mkGlobals (Some self)
    (cerr g ++ match instance_ g with
               | Some _ => ["Warning: Multiple KeyboardHookManager instances created."%string]
               | None => []
               end).

End Hook.

(** * Concrete inputs used by the scenarios below *)
Module Scenarios.
Import Player.

(** A full queue of 64 high-priority requests, the oldest one first. *)
Definition full_high_queue : list PendingSound :=
  mkPendingSound "old.wav"%string true
    :: repeat (mkPendingSound "mid.wav"%string true) 63.

(** A decoder that fails on every file, and one that succeeds on every file
    with a 120 ms buffer. *)
Definition fail_load (p : string) : option SoundBuffer := None.
Definition ok_load (p : string) : option SoundBuffer := Some (mkSoundBuffer 120).

(** One admissible iteration order of the cache: the first key of the map's
    own enumeration. *)
Definition first_key (m : gmap string SoundBuffer) : option string :=
  head (map fst (map_to_list m)).

(** 32 low-priority voices, oldest first. *)
Definition low_voices : list SoundInstance :=
  map (fun i => mkSoundInstance i 5000 "key-up.wav"%string false) (seq 0 32).

(** At capacity with low-priority voices; one high-priority request for a
    file that is not cached is pending. *)
Definition full_low_state : PlayerState :=
  mkPlayerState [mkPendingSound "missing.wav"%string true] low_voices ∅ [] 50 32 [].

(** Distinct paths "a", "aa", "aaa", ... *)
Fixpoint rep_a (n : nat) : string :=
  match n with
  | 0 => EmptyString
  | S n' => String "a"%char (rep_a n')
  end.

Definition path_n (i : nat) : string := rep_a (S i).

(** The cache after the worker resolved each path of [ps] in turn. *)
Fixpoint get_all (loadFromFile : string -> option SoundBuffer)
    (cache_begin : gmap string SoundBuffer -> option string)
    (ps : list string) (c : gmap string SoundBuffer) : gmap string SoundBuffer :=
  match ps with
  | [] => c
  | p :: ps' => get_all loadFromFile cache_begin ps'
                  (snd (fst (getBuffer loadFromFile cache_begin p c)))
  end.

(** A cache holding one decoded path. *)
Definition one_cache : gmap string SoundBuffer :=
  {["a.wav"%string := mkSoundBuffer 120]}.

End Scenarios.

(** * Predicates used by the statements about the player *)

Module PlayerSpecs.
Import Player.

Abbreviation LItem := (nat * PendingSound)%type.

(** The queue is a block of high-priority requests followed by a block of
    low-priority ones, each block in submission order, all submitted
    before step [n]. *)
Definition Inv (n : nat) (hs ls : list LItem) : Prop :=
  Forall (fun e => lhp e = true) hs /\ Forall (fun e => lhp e = false) ls /\
  StronglySorted lt (map fst hs) /\ StronglySorted lt (map fst ls) /\
  Forall (fun e => fst e < n) (hs ++ ls).

(** Two requests of the same class are serviced in submission order. *)
Definition fifo_ok (a b : Serviced) : Prop :=
  highPriority (s_req a) = highPriority (s_req b) -> s_label a < s_label b.

(** A high-priority request serviced after a low-priority one was submitted
    after that one had been dequeued. *)
Definition prio_ok (a b : Serviced) : Prop :=
  highPriority (s_req a) = false -> highPriority (s_req b) = true ->
  s_step a < s_label b.

(** The voice the worker adds for request [s] when its buffer resolves. *)
Definition started_voice
  (loadFromFile : string -> option SoundBuffer)
  (cache_begin : gmap string SoundBuffer -> option string)
  (now : Z) (st : PlayerState) (s : PendingSound) : list SoundInstance :=
  match fst (fst (getBuffer loadFromFile cache_begin (path s) (soundBuffers st))) with
  | Some b => [mkSoundInstance (next_sound st) (now + (duration_ms b + 200))
                 (path s) (highPriority s)]
  | None => []
  end.

End PlayerSpecs.

(** * Predicates and scenarios for the hook manager *)

Module HookSpecs.
Import Hook.
Local Open Scope Z_scope.

(** A call [playSound(p, true)]: only [handleKeyDown] makes one. *)
Definition is_down_play (r : Req) : bool :=
  match r with ReqPlay _ true => true | _ => false end.

(** The calls of one hook event include a key-down sound trigger. *)
Definition down_trigger (rs : list Req) : bool := existsb is_down_play rs.

(** A preload call with priority [hp]. *)
Definition preload_with (hp : bool) (r : Req) : Prop :=
  match r with ReqPreload _ h => h = hp | ReqPlay _ _ => False end.

(** Two logged events, the first earlier: if both trigger a key-down sound
    for the same key code, they are at least 25 ms (in nanoseconds) apart. *)
Definition debounce_ok (a b : HookEvent * list Req) : Prop :=
  to_WORD (vkCode (fst a)) = to_WORD (vkCode (fst b)) ->
  down_trigger (snd a) = true -> down_trigger (snd b) = true ->
  time (fst a) + 25000000 <= time (fst b).

(** The events come at times that never decrease, starting at [t0] or later. *)
Fixpoint times_from (t0 : Z) (evs : list HookEvent) : bool :=
  match evs with
  | [] => true
  | ev :: r => Z.leb t0 (time ev) && times_from (time ev) r
  end.

(** Every recorded key timestamp is at most [t0]. *)
Definition stamps_before (ts : gmap Z Z) (t0 : Z) : bool :=
  forallb (fun kt => Z.leb (snd kt) t0) (map_to_list ts).

(** A sound catalogue with a down and an up sound for every key. *)
Definition cat (k : Z) (down : bool) : string :=
  if down then "down.wav"%string else "up.wav"%string.

Definition ev_down (k t : Z) : HookEvent := mkHookEvent HC_ACTION WM_KEYDOWN k 0 t.
Definition ev_up (k t : Z) : HookEvent := mkHookEvent HC_ACTION WM_KEYUP k 0 t.

(** Key 'A' is filtered and filtering is on. *)
Definition filtering_A : HookState :=
  mkHookState ∅ ∅ [] ∅ 2 true {[65]} true.

End HookSpecs.

(** * The rest of the player, the hook manager and the sound manager *)

Module PlayerExt.
Import Player.

(** [SFMLSoundPlayer::setVolume(volume)]: [std::clamp(volume, 0, 100)],
    then [sound->setVolume] on every active voice, returned as the list of
    (sound, volume) calls. *)
Definition setVolume (v : Z) (st : PlayerState) : PlayerState * list (nat * Z) :=
  let vol := if Z.ltb v 0 then 0%Z else if Z.ltb 100 v then 100%Z else v in
  (mkPlayerState (pendingSounds st) (activeSounds st) (soundBuffers st)
     (preloadTasks st) vol (next_sound st) (events st),
   map (fun i => (sound i, vol)) (activeSounds st)).

(** [getVolume()] *)
Definition getVolume (st : PlayerState) : Z := volume st.

(** The player operations together with [setVolume] (called from the UI
    thread). *)
Inductive vop :=
| VOp (o : pop)
| VSetVolume (v : Z).

Section Backend.
Variable loadFromFile : string -> option SoundBuffer.
Variable cache_begin : gmap string SoundBuffer -> option string.

(** A run, with the [sound->setVolume] calls it made. *)
Fixpoint vrun (ops : list vop) (st : PlayerState)
  : PlayerState * list (nat * Z) :=
  match ops with
  | [] => (st, [])
  | VOp o :: ops' => vrun ops' (pstep loadFromFile cache_begin o st)
  | VSetVolume v :: ops' =>
      let '(st1, calls) := setVolume v st in
      let '(st2, calls') := vrun ops' st1 in
      (st2, calls ++ calls')
  end.
End Backend.

End PlayerExt.

Module HookExt.
Import Hook.

(** [setKeyFilteringEnabled(enabled)] *)
Definition setKeyFilteringEnabled (enabled : bool) (st : HookState) : HookState :=
  mkHookState (pressedKeys st) (keyTimestamps st) (recentKeys st) (keyFollowers st)
    (latencyOptimizationLevel st) enabled (filteredKeys st) (has_instance st).

(** [addKeyToFilter(vkCode)]: [filteredKeys_.insert(vkCode)] *)
Definition addKeyToFilter (vk : Z) (st : HookState) : HookState :=
  mkHookState (pressedKeys st) (keyTimestamps st) (recentKeys st) (keyFollowers st)
    (latencyOptimizationLevel st) (keyFilteringEnabled st)
    ({[vk]} ∪ filteredKeys st) (has_instance st).

(** [removeKeyFromFilter(vkCode)]: [filteredKeys_.erase(vkCode)] *)
Definition removeKeyFromFilter (vk : Z) (st : HookState) : HookState :=
  mkHookState (pressedKeys st) (keyTimestamps st) (recentKeys st) (keyFollowers st)
    (latencyOptimizationLevel st) (keyFilteringEnabled st)
    (filteredKeys st ∖ {[vk]}) (has_instance st).


End HookExt.

Module Sounds.
Local Open Scope Z_scope.

(** [enum class KeyType] *)
Inductive KeyType := ALPHA | ALT | ENTER | SPACE | OTHER.

#[global] Instance KeyType_eq_dec : EqDecision KeyType.
Proof. solve_decision. Defined.

(** [struct SoundCategory] *)
Record SoundCategory := mkSoundCategory { down : list string; up : list string }.

Definition emptyCategory : SoundCategory := mkSoundCategory [] [].

(** The fields of a [SoundManager]. [categories_] is an
    [std::unordered_map<KeyType, SoundCategory>], written as a partial
    function of its five possible keys; [keyMappings_] maps WORD key
    codes. *)
Record SoundManager := mkSoundManager
  { folderPath_ : string;
    categories_ : KeyType -> option SoundCategory;
    keyMappings_ : gmap Z KeyType }.

(** [categories_[t] = c] *)
Definition update_category (t : KeyType) (c : SoundCategory)
    (m : KeyType -> option SoundCategory) : KeyType -> option SoundCategory :=
  fun t' => if decide (t' = t) then Some c else m t'.

Definition VK_SPACE : Z := 32.
Definition VK_RETURN : Z := 13.
Definition VK_MENU : Z := 18.

(** [SoundManager(folder)] *)
Definition newSoundManager (folder : string) : SoundManager :=
  mkSoundManager folder
    (update_category OTHER emptyCategory
      (update_category SPACE emptyCategory
        (update_category ENTER emptyCategory
          (update_category ALT emptyCategory
            (update_category ALPHA emptyCategory (fun _ => None))))))
    (<[VK_MENU := ALT]> (<[VK_RETURN := ENTER]> (<[VK_SPACE := SPACE]> ∅))).

(** [getKeyTypeForVkCode(vkCode)] *)
Definition getKeyTypeForVkCode (vk : Z) (sm : SoundManager) : KeyType :=
  match keyMappings_ sm !! vk with
  | Some t => t
  | None => ALPHA
  end.

(** [addKeyMapping(vkCode, type)] *)
Definition addKeyMapping (vk : Z) (t : KeyType) (sm : SoundManager) : SoundManager :=
  mkSoundManager (folderPath_ sm) (categories_ sm) (<[vk := t]> (keyMappings_ sm)).

(** [setFolderPath(newFolder)] *)
Definition setFolderPath (f : string) (sm : SoundManager) : SoundManager :=
  mkSoundManager f (categories_ sm) (keyMappings_ sm).

(** [getRandomSoundForKey(vkCode, keyDown)]. [pick n] is the value drawn
    by [std::uniform_int_distribution<>(0, n - 1)] from the generator. *)
Definition getRandomSoundForKey (pick : nat -> nat) (vk : Z) (keyDown : bool)
    (sm : SoundManager) : string :=
  let kt := getKeyTypeForVkCode vk sm in
  match match categories_ sm kt with
        | Some c => Some c
        | None => categories_ sm ALPHA
        end with
  | None => EmptyString
  | Some c =>
      let sounds := if keyDown then down c else up c in
      match sounds with
      | [] => EmptyString
      | _ :: _ => nth (pick (length sounds)) sounds EmptyString
      end
  end.

(** What a [directory_iterator] scan of one directory does: the directory
    does not exist (or is not a directory); it lists the paths of its
    regular [.mp3] files, in iteration order; or a [filesystem_error] is
    thrown after the listed paths were pushed. *)
Inductive DirScan :=
| DirMissing
| DirFiles (ps : list string)
| DirFailed (ps : list string).

Definition scanned (d : DirScan) : list string :=
  match d with DirFiles ps => ps | _ => [] end.

Section FileSystem.
(** The scan of a directory path, and [std::filesystem::exists]. *)
Variable scanDir : string -> DirScan.
Variable pathExists : string -> bool.

(** [loadSoundCategory(categoryName, cat)]: the new category and the
    result. *)
Definition loadSoundCategory (folder name : string) : SoundCategory * bool :=
  let downPath := (folder ++ "/" ++ name ++ "/down")%string in
  let upPath := (folder ++ "/" ++ name ++ "/up")%string in
  match scanDir downPath with
  | DirFailed ps => (mkSoundCategory ps [], false)
  | d =>
      match scanDir upPath with
      | DirFailed ps => (mkSoundCategory (scanned d) ps, false)
      | u =>
          (mkSoundCategory (scanned d) (scanned u),
           match scanned d ++ scanned u with [] => false | _ :: _ => true end)
      end
  end.

(** The [categoryNames] table of [loadSounds]. Its iteration order is that
    of an [std::unordered_map]; each iteration writes its own category, so
    the order only affects the log. *)
Definition categoryNames : list (KeyType * string) :=
  [(ALPHA, "alpha"%string); (ALT, "alt"%string); (ENTER, "enter"%string);
   (SPACE, "space"%string); (OTHER, "other"%string)].

(** The loop over [categoryNames]: [anySuccess |= result]. *)
Definition load_all (folder : string) (cats : KeyType -> option SoundCategory)
  : bool * (KeyType -> option SoundCategory) :=
  fold_left (fun acc tn =>
               let '(c, r) := loadSoundCategory folder (snd tn) in
               (fst acc || r, update_category (fst tn) c (snd acc)))
    categoryNames (false, cats).

Definition is_empty_list (l : list string) : bool :=
  match l with [] => true | _ :: _ => false end.

(** [loadSounds()] *)
Definition loadSounds (sm : SoundManager) : bool * SoundManager :=
  if negb (pathExists (folderPath_ sm)) then (false, sm)
  else
    let cleared := fun t => option_map (fun _ => emptyCategory) (categories_ sm t) in
    let '(anySuccess, cats) := load_all (folderPath_ sm) cleared in
    let a := default emptyCategory (cats ALPHA) in
    let o := default emptyCategory (cats OTHER) in
    (* [categories_[ALPHA]] and [categories_[OTHER]] are present after
       the loop, so [operator[]] inserts nothing here. *)
    let cats' :=
      if is_empty_list (down a) && is_empty_list (up a) then
        if negb (is_empty_list (down o)) || negb (is_empty_list (up o))
        then update_category ALPHA o cats
        else cats
      else cats in
    (anySuccess, mkSoundManager (folderPath_ sm) cats' (keyMappings_ sm)).

(** The calls the application makes on its sound manager. *)
Inductive smop :=
| SMLoad
| SMSetFolder (f : string)
| SMAddMapping (vk : Z) (t : KeyType).

Fixpoint smrun (ops : list smop) (sm : SoundManager) : SoundManager :=
  match ops with
  | [] => sm
  | SMLoad :: ops' => smrun ops' (snd (loadSounds sm))
  | SMSetFolder f :: ops' => smrun ops' (setFolderPath f sm)
  | SMAddMapping vk t :: ops' => smrun ops' (addKeyMapping vk t sm)
  end.
End FileSystem.

End Sounds.

(** * Predicates used by the statements about the rest of the code *)

Module ExtSpecs.
Import Player.

(** An audio event that, if it starts a voice, starts it at volume [vol]. *)
Definition plays_at (vol : Z) (ev : AudioEvent) : Prop :=
  match ev with EvPlay _ _ v => v = vol | _ => True end.

(** An audio event that, if it starts a voice, starts it at a volume in
    [0, 100]. *)
Definition plays_in_range (ev : AudioEvent) : Prop :=
  match ev with EvPlay _ _ v => (0 <= v <= 100)%Z | _ => True end.

(** [cache_begin] behaves as [begin()] of an [std::unordered_map]: on a
    non-empty map it names one of the map's keys. *)
Definition begin_in_map (cache_begin : gmap string SoundBuffer -> option string) : Prop :=
  forall c : gmap string SoundBuffer, c <> ∅ ->
    exists k, cache_begin c = Some k /\ is_Some (c !! k).

End ExtSpecs.

(** * Predicates used by the statements about the hook procedure *)

Module HookExtSpecs.
Import Hook.
Local Open Scope Z_scope.

(** The requests a hook call may make. *)
Definition req_ok (g : Z -> bool -> string) (ev : HookEvent) (r : Req) : Prop :=
  let down := Z.eqb (wParam ev) WM_KEYDOWN || Z.eqb (wParam ev) WM_SYSKEYDOWN in
  match r with
  | ReqPlay p h => p = g (to_WORD (vkCode ev)) h /\ p <> EmptyString /\ h = down
  | ReqPreload p _ => p <> EmptyString /\ down = true
  end.

End HookExtSpecs.

(** * Predicates used by the statements about the sound manager *)

Module SoundsSpecs.
Import Sounds.

(** A category with no sound in either list. *)
Definition cat_empty (c : SoundCategory) : bool :=
  is_empty_list (down c) && is_empty_list (up c).

(** The five categories are present. *)
Definition all_present (sm : SoundManager) : Prop :=
  forall t, is_Some (categories_ sm t).

End SoundsSpecs.

(** * Concrete hook states used by the examples below *)

Module ExtScenarios.
Import Hook.
Local Open Scope Z_scope.

(** A state with one key in its history. *)
Definition after_A : HookState := mkHookState ∅ ∅ [65] ∅ 2 false ∅ true.

(** The follower map with 66 learnt after 65. *)
Definition followers_AB : gmap Z (gset Z) := <[65 := {[66]}]> ∅.

End ExtScenarios.

(** * Proofs about the pending-request deque *)
Module QueueProofs.
Import Player Scenarios PlayerSpecs.

Section Generic.
Context {Item : Type} (hp : Item -> bool).

Lemma length_insert_high (x : Item) (q : list Item) :
  length (insert_high hp x q) = S (length q).
Proof. induction q as [|y q IH]; simpl; [done|]. destruct (hp y); simpl; lia. Qed.

Lemma length_insert_by_priority (x : Item) (q : list Item) :
  length (insert_by_priority hp x q) = S (length q).
Proof.
  unfold insert_by_priority. destruct (hp x).
  - apply length_insert_high.
  - rewrite length_app. simpl. lia.
Qed.

Lemma erase_first_low_Some (q q' : list Item) :
  erase_first_low hp q = Some q' ->
  exists pre y post, q = pre ++ y :: post /\ q' = pre ++ post /\
    hp y = false /\ Forall (fun e => hp e = true) pre.
Proof.
  revert q'. induction q as [|y q IH]; intros q' H; simpl in H; [done|].
  destruct (hp y) eqn:Hy.
  - destruct (erase_first_low hp q) as [r|] eqn:Hr; simpl in H; [|done].
    injection H as <-. destruct (IH r eq_refl) as (pre & z & post & -> & -> & Hz & Hpre).
    exists (y :: pre), z, post. simpl. repeat split; auto.
  - injection H as <-. exists [], y, q. simpl. auto.
Qed.

Lemma erase_first_low_None (q : list Item) :
  erase_first_low hp q = None -> Forall (fun e => hp e = true) q.
Proof.
  induction q as [|y q IH]; simpl; intros H; [constructor|].
  destruct (hp y) eqn:Hy; [|done].
  destruct (erase_first_low hp q); simpl in H; [done|]. constructor; auto.
Qed.

Lemma length_removelast_cons (y : Item) (r : list Item) :
  length (removelast (y :: r)) = length r.
Proof.
  revert y. induction r as [|z r IH]; intros y; [done|].
  change (S (length (removelast (z :: r))) = S (length r)). by rewrite IH.
Qed.

Lemma length_limit_queue (q : list Item) :
  length q <= S MAX_PENDING -> length (limit_queue hp q) <= MAX_PENDING.
Proof.
  intros Hl. unfold limit_queue. destruct (Nat.ltb_spec MAX_PENDING (length q)); [|lia].
  destruct (erase_first_low hp q) as [q'|] eqn:He.
  - destruct (erase_first_low_Some _ _ He) as (pre & y & post & -> & -> & _).
    rewrite length_app in *. simpl in *. lia.
  - destruct q as [|y r]; [simpl in *; lia|].
    change (length (removelast (y :: r)) <= MAX_PENDING).
    rewrite length_removelast_cons. simpl in *. lia.
Qed.

Lemma length_enqueue (x : Item) (q : list Item) :
  length q <= MAX_PENDING -> length (enqueue hp x q) <= MAX_PENDING.
Proof.
  intros H. apply length_limit_queue. rewrite length_insert_by_priority. lia.
Qed.

(** The overflow policy removes exactly one item, a low-priority one
    whenever the over-full queue holds one. *)
Lemma limit_queue_evicts (q : list Item) :
  MAX_PENDING < length q ->
  exists pre y post, q = pre ++ y :: post /\ limit_queue hp q = pre ++ post /\
    (Exists (fun e => hp e = false) q -> hp y = false).
Proof.
  intros Hl. unfold limit_queue. destruct (Nat.ltb_spec MAX_PENDING (length q)); [|lia].
  destruct (erase_first_low hp q) as [q'|] eqn:He.
  - destruct (erase_first_low_Some _ _ He) as (pre & y & post & -> & -> & Hy & _).
    exists pre, y, post. auto.
  - apply erase_first_low_None in He.
    destruct q as [|z r]; [simpl in *; lia|].
    exists (removelast (z :: r)), (List.last (z :: r) z), [].
    rewrite app_nil_r. split; [apply app_removelast_last; done|]. split; [done|].
    intros Hex. apply List.Exists_exists in Hex as (e & He1 & He2).
    rewrite List.Forall_forall in He. rewrite He in He2 by done. done.
Qed.
End Generic.

(** The unlabelled queue run stays within the bound from any state that
    does. *)
Lemma length_qrun (ops : list qop) (q : list PendingSound) :
  length q <= MAX_PENDING -> length (qrun ops q) <= MAX_PENDING.
Proof.
  revert q. induction ops as [|[p h|] ops IH]; intros q Hq; simpl; [done| |].
  - apply IH. unfold playSound. destruct (String.eqb p EmptyString); simpl; [done|].
    by apply length_enqueue.
  - destruct q as [|x q']; simpl in *; apply IH; [done|lia].
Qed.


(** C2: after any sequence of [playSound] calls and worker dequeues from
    the empty queue, the pending queue holds at most 64 requests; and when
    an insertion takes the queue over the bound, exactly one request is
    removed, a low-priority one whenever the queue holds one. *)
Theorem pending_queue_bounded :
  (forall ops : list qop, length (qrun ops []) <= MAX_PENDING) /\
  (forall (x : PendingSound) (q : list PendingSound),
     MAX_PENDING < length (insert_by_priority highPriority x q) ->
     exists pre y post,
       insert_by_priority highPriority x q = pre ++ y :: post /\
       enqueue highPriority x q = pre ++ post /\
       (Exists (fun e => highPriority e = false)
          (insert_by_priority highPriority x q) -> highPriority y = false)).
Proof.
  split.
  - intros ops. apply length_qrun. simpl. lia.
  - intros x q Hl. unfold enqueue. by apply limit_queue_evicts.
Qed.

(** The eviction of C2 on a full queue holding one low-priority request. *)
Lemma pending_queue_bounded_witness :
  let x := mkPendingSound "new.wav"%string true in
  let q := mkPendingSound "low.wav"%string false
             :: repeat (mkPendingSound "mid.wav"%string true) 63 in
  MAX_PENDING < length (insert_by_priority highPriority x q) /\
  exists pre y post,
    insert_by_priority highPriority x q = pre ++ y :: post /\
    enqueue highPriority x q = pre ++ post /\
    (Exists (fun e => highPriority e = false)
       (insert_by_priority highPriority x q) -> highPriority y = false).
Proof.
  cbv zeta.
  assert (Hl : MAX_PENDING < length (insert_by_priority highPriority
                 (mkPendingSound "new.wav"%string true)
                 (mkPendingSound "low.wav"%string false
                    :: repeat (mkPendingSound "mid.wav"%string true) 63)))
    by (vm_compute; lia).
  split; [exact Hl|].
  exact (proj2 pending_queue_bounded _ _ Hl).
Defined.

(** C3: with 64 high-priority requests pending, a further high-priority
    [playSound] leaves the queue unchanged: the new request (the newest,
    at the back) is evicted, while the oldest one stays at the front. *)
Theorem overflow_evicts_newest_high :
  length full_high_queue = MAX_PENDING /\
  playSound "new.wav"%string true full_high_queue = (true, full_high_queue) /\
  head (snd (playSound "new.wav"%string true full_high_queue))
    = Some (mkPendingSound "old.wav"%string true).
Proof. vm_compute. repeat split. Qed.

(** C10: [playSound] returns false exactly for the empty path, whatever the
    queue; a request can be accepted and evicted by the same call. *)
Theorem playSound_result :
  (forall (filePath : string) (hp : bool) (q : list PendingSound),
     fst (playSound filePath hp q) = false <-> filePath = EmptyString) /\
  (exists (q : list PendingSound),
     playSound "up.wav"%string false q = (true, q) /\
     ~ In (mkPendingSound "up.wav"%string false) q).
Proof.
  split.
  - intros filePath hp q. unfold playSound.
    destruct (String.eqb_spec filePath EmptyString); simpl; split; congruence.
  - exists (repeat (mkPendingSound "down.wav"%string true) 64). split.
    + vm_compute. reflexivity.
    + intros Hin. apply repeat_spec in Hin. discriminate.
Qed.


(** ** Ordering of service (labelled runs) *)


Lemma SS_snoc (l : list nat) (z : nat) :
  StronglySorted lt l -> Forall (fun a => a < z) l -> StronglySorted lt (l ++ [z]).
Proof.
  induction l as [|a l IH]; intros Hs Hf; simpl.
  - repeat constructor.
  - apply StronglySorted_inv in Hs as [Hs Ha]. inversion Hf; subst.
    constructor; [auto|]. apply Forall_app. split; [done|]. constructor; auto.
Qed.

Lemma insert_high_app (x : LItem) (hs ls : list LItem) :
  Forall (fun e => lhp e = true) hs -> Forall (fun e => lhp e = false) ls ->
  insert_high lhp x (hs ++ ls) = hs ++ x :: ls.
Proof.
  intros Hh Hl. induction Hh as [|h hs Hh1 Hh2 IH]; simpl.
  - destruct ls as [|y ls]; [done|]. inversion Hl; subst. simpl. by rewrite H1.
  - by rewrite Hh1, IH.
Qed.

Lemma erase_first_low_app_high (hs l : list LItem) :
  Forall (fun e => lhp e = true) hs ->
  erase_first_low lhp (hs ++ l) = option_map (app hs) (erase_first_low lhp l).
Proof.
  intros Hh. induction Hh as [|h hs Hh1 Hh2 IH]; simpl.
  - by destruct (erase_first_low lhp l).
  - rewrite Hh1, IH. by destruct (erase_first_low lhp l).
Qed.

Lemma drop_back_snoc {A : Type} (l : list A) (y : A) :
  match l ++ [y] with [] => l ++ [y] | _ :: _ => pop_back (l ++ [y]) end = l.
Proof.
  destruct l as [|a l]; [done|].
  change (pop_back ((a :: l) ++ [y]) = a :: l). unfold pop_back.
  apply removelast_last.
Qed.

Lemma Inv_later (n : nat) (hs ls : list LItem) : Inv n hs ls -> Inv (S n) hs ls.
Proof.
  intros (H1 & H2 & H3 & H4 & H5). repeat split; auto.
  eapply Forall_impl; [exact H5|]. simpl. lia.
Qed.

Lemma labels_below (n : nat) (l : list LItem) :
  Forall (fun e => fst e < n) l -> Forall (fun a => a < n) (map fst l).
Proof. intros H. apply Forall_map. done. Qed.

Lemma Forall_subseteq {A : Type} (P : A -> Prop) (l l' : list A) :
  l ⊆ l' -> Forall P l' -> Forall P l.
Proof.
  intros Hs Hf. apply Forall_forall. intros e He.
  rewrite Forall_forall in Hf. apply Hf, Hs, He.
Qed.

Lemma SS_tail (l : list LItem) (y : LItem) (r : list LItem) :
  StronglySorted lt (map fst l) -> l = y :: r -> StronglySorted lt (map fst r).
Proof. intros Hs ->. simpl in Hs. apply StronglySorted_inv in Hs. tauto. Qed.

(** [enqueue] of the request submitted at step [n] keeps the invariant and
    adds no request other than that one. *)
Lemma enqueue_Inv (n : nat) (hs ls : list LItem) (x : PendingSound) :
  Inv n hs ls ->
  exists hs' ls', enqueue lhp (n, x) (hs ++ ls) = hs' ++ ls' /\ Inv (S n) hs' ls' /\
    hs' ++ ls' ⊆ (n, x) :: hs ++ ls.
Proof.
  intros (Hh & Hl & Sh & Sl & Hb).
  assert (Hb' : Forall (fun e : LItem => fst e < S n) ((n, x) :: hs ++ ls)).
  { constructor; [simpl; lia|]. eapply Forall_impl; [exact Hb|]. simpl. lia. }
  assert (Shx : StronglySorted lt (map fst (hs ++ [(n, x)]))).
  { rewrite map_app. apply SS_snoc; [done|]. apply labels_below.
    apply Forall_app in Hb. tauto. }
  assert (Slx : StronglySorted lt (map fst (ls ++ [(n, x)]))).
  { rewrite map_app. apply SS_snoc; [done|]. apply labels_below.
    apply Forall_app in Hb. tauto. }
  cut (exists hs' ls', enqueue lhp (n, x) (hs ++ ls) = hs' ++ ls' /\
         Forall (fun e => lhp e = true) hs' /\ Forall (fun e => lhp e = false) ls' /\
         StronglySorted lt (map fst hs') /\ StronglySorted lt (map fst ls') /\
         hs' ++ ls' ⊆ (n, x) :: hs ++ ls).
  { intros (hs' & ls' & E & H1 & H2 & H3 & H4 & H5). exists hs', ls'.
    repeat split; auto. eapply Forall_subseteq; eauto. }
  unfold enqueue, insert_by_priority. destruct (lhp (n, x)) eqn:Hx.
  - rewrite insert_high_app by done.
    assert (Hhx : Forall (fun e => lhp e = true) (hs ++ [(n, x)])).
    { apply Forall_app. auto. }
    assert (Eq : hs ++ (n, x) :: ls = (hs ++ [(n, x)]) ++ ls).
    { by rewrite <- app_assoc. }
    rewrite Eq. unfold limit_queue.
    destruct (Nat.ltb MAX_PENDING (length ((hs ++ [(n, x)]) ++ ls))).
    + rewrite erase_first_low_app_high by done.
      destruct ls as [|y ls'].
      * cbn [erase_first_low option_map]. rewrite app_nil_r, drop_back_snoc.
        exists hs, []. rewrite app_nil_r. repeat split; auto; try constructor; set_solver.
      * inversion Hl; subst. cbn [erase_first_low option_map]. rewrite H1.
        exists (hs ++ [(n, x)]), ls'. repeat split; auto.
        all: try set_solver.
        simpl in Sl. apply StronglySorted_inv in Sl. tauto.
    + exists (hs ++ [(n, x)]), ls. repeat split; auto. set_solver.
  - assert (Eq : (hs ++ ls) ++ [(n, x)] = hs ++ (ls ++ [(n, x)])).
    { by rewrite <- app_assoc. }
    assert (Hlx : Forall (fun e => lhp e = false) (ls ++ [(n, x)])).
    { apply Forall_app. auto. }
    rewrite Eq. unfold limit_queue.
    destruct (Nat.ltb MAX_PENDING (length (hs ++ ls ++ [(n, x)]))).
    + rewrite erase_first_low_app_high by done.
      destruct (ls ++ [(n, x)]) as [|y r] eqn:E; [by destruct ls|].
      inversion Hlx; subst. cbn [erase_first_low option_map]. rewrite H1.
      exists hs, r. repeat split; auto.
      * eapply SS_tail; [exact Slx|done].
      * assert (r ⊆ ls ++ [(n, x)]) by (rewrite E; set_solver). set_solver.
    + exists hs, (ls ++ [(n, x)]). repeat split; auto. set_solver.
Qed.


Lemma SS_head_lt (h e : LItem) (l : list LItem) :
  StronglySorted lt (map fst (h :: l)) -> e ∈ l -> fst h < fst e.
Proof.
  simpl. intros Hs He. apply StronglySorted_inv in Hs as [_ Hf].
  rewrite List.Forall_forall in Hf. apply Hf. apply in_map. by apply list_elem_of_In.
Qed.

Lemma Forall_elem {A : Type} (P : A -> Prop) (l : list A) (e : A) :
  Forall P l -> e ∈ l -> P e.
Proof. intros Hf He. rewrite Forall_forall in Hf. auto. Qed.


Lemma lrun_props (ops : list qop) :
  forall n hs ls, Inv n hs ls ->
  (forall e, e ∈ lrun n (hs ++ ls) ops ->
     ((s_label e, s_req e) ∈ hs ++ ls \/ n <= s_label e) /\ n <= s_step e) /\
  ForallOrdPairs fifo_ok (lrun n (hs ++ ls) ops) /\
  ForallOrdPairs prio_ok (lrun n (hs ++ ls) ops).
Proof.
  induction ops as [|[p h|] ops IH]; intros n hs ls HI.
  - simpl. split; [intros e He; by apply not_elem_of_nil in He|]. split; constructor.
  - simpl. destruct (String.eqb p EmptyString).
    + destruct (IH (S n) hs ls (Inv_later _ _ _ HI)) as (Ho & Hf & Hp).
      split; [|done]. intros e He. destruct (Ho e He) as [[Hin|Hle] Hs]; split; auto; lia.
    + destruct (enqueue_Inv n hs ls (mkPendingSound p h) HI) as (hs' & ls' & -> & HI' & Hsub).
      destruct (IH (S n) hs' ls' HI') as (Ho & Hf & Hp). split; [|done].
      intros e He. destruct (Ho e He) as [[Hin|Hle] Hs]; split; try lia.
      apply Hsub in Hin. apply elem_of_cons in Hin as [Heq|Hin]; [|by left].
      right. injection Heq as -> _. lia.
  - destruct HI as (Hh & Hl & Sh & Sl & Hb). destruct hs as [|[lab x] hs'].
    + destruct ls as [|[lab x] ls'].
      * simpl. assert (HI0 : Inv (S n) [] []) by (repeat split; constructor).
        destruct (IH (S n) [] [] HI0) as (Ho & Hf & Hp). split; [|done].
        intros e He. destruct (Ho e He) as [[Hin|Hle] Hs]; [by apply not_elem_of_nil in Hin|].
        split; lia.
      * simpl. assert (HI' : Inv (S n) [] ls').
        { repeat split; try constructor.
          - by inversion Hl.
          - simpl in Sl. apply StronglySorted_inv in Sl. tauto.
          - simpl in Hb. inversion Hb; subst. eapply Forall_impl; [eassumption|]. simpl. lia. }
        destruct (IH (S n) [] ls' HI') as (Ho & Hf & Hp). simpl in Ho, Hf, Hp.
        inversion Hl as [|? ? Hx _]; subst. unfold lhp in Hx. simpl in Hx.
        inversion Hb as [|? ? Hlab _]; subst. simpl in Hlab.
        split; [|split].
        -- intros e He. apply elem_of_cons in He as [->|He]; simpl.
           ++ split; [left; apply elem_of_cons; by left|lia].
           ++ destruct (Ho e He) as [[Hin|Hle] Hs]; split; try lia.
              left. apply elem_of_cons; by right.
        -- constructor; [|done]. apply Forall_forall. intros e He. unfold fifo_ok. simpl.
           intros Hc. destruct (Ho e He) as [[Hin|Hle] _]; [|lia].
           exact (SS_head_lt (lab, x) (s_label e, s_req e) ls' Sl Hin).
        -- constructor; [|done]. apply Forall_forall. intros e He. unfold prio_ok. simpl.
           intros _ He2. destruct (Ho e He) as [[Hin|Hle] _]; [|lia].
           pose proof (Forall_elem _ _ _ Hl (proj2 (elem_of_cons _ _ _) (or_intror Hin))) as Hc.
           unfold lhp in Hc. simpl in Hc. congruence.
    + simpl. assert (HI' : Inv (S n) hs' ls).
      { repeat split; auto.
        - by inversion Hh.
        - simpl in Sh. apply StronglySorted_inv in Sh. tauto.
        - simpl in Hb. inversion Hb; subst. eapply Forall_impl; [eassumption|]. simpl. lia. }
      destruct (IH (S n) hs' ls HI') as (Ho & Hf & Hp).
      inversion Hh as [|? ? Hx _]; subst. unfold lhp in Hx. simpl in Hx.
      inversion Hb as [|? ? Hlab _]; subst. simpl in Hlab.
      split; [|split].
      * intros e He. apply elem_of_cons in He as [->|He]; simpl.
        -- split; [left; apply elem_of_cons; by left|lia].
        -- destruct (Ho e He) as [[Hin|Hle] Hs]; split; try lia.
           left. apply elem_of_cons; by right.
      * constructor; [|done]. apply Forall_forall. intros e He. unfold fifo_ok. simpl.
        intros Hc. destruct (Ho e He) as [[Hin|Hle] _]; [|lia].
        apply elem_of_app in Hin as [Hin|Hin].
        -- exact (SS_head_lt (lab, x) (s_label e, s_req e) hs' Sh Hin).
        -- pose proof (Forall_elem _ _ _ Hl Hin) as Hc'. unfold lhp in Hc'. simpl in Hc'.
           congruence.
      * constructor; [|done]. apply Forall_forall. intros e He. unfold prio_ok. simpl.
        congruence.
Qed.


(** ** The labels are ghost state *)
Section MapQueue.
Context {A B : Type} (f : A -> B) (hpA : A -> bool) (hpB : B -> bool).
Hypothesis Hc : forall a, hpA a = hpB (f a).

Lemma map_insert_high (x : A) (q : list A) :
  map f (insert_high hpA x q) = insert_high hpB (f x) (map f q).
Proof. induction q as [|y q IH]; simpl; [done|]. rewrite Hc. destruct (hpB (f y)); simpl; congruence. Qed.

Lemma map_erase_first_low (q : list A) :
  option_map (map f) (erase_first_low hpA q) = erase_first_low hpB (map f q).
Proof.
  induction q as [|y q IH]; simpl; [done|]. rewrite Hc. destruct (hpB (f y)); [|done].
  rewrite <- IH. by destruct (erase_first_low hpA q).
Qed.

Lemma map_removelast (q : list A) : map f (removelast q) = removelast (map f q).
Proof. induction q as [|y q IH]; [done|]. destruct q as [|z q]; [done|]. simpl in *. by rewrite IH. Qed.

Lemma map_enqueue (x : A) (q : list A) :
  map f (enqueue hpA x q) = enqueue hpB (f x) (map f q).
Proof.
  unfold enqueue, insert_by_priority. rewrite Hc.
  assert (Hi : map f (if hpB (f x) then insert_high hpA x q else q ++ [x]) =
               (if hpB (f x) then insert_high hpB (f x) (map f q) else map f q ++ [f x])).
  { destruct (hpB (f x)); [apply map_insert_high|by rewrite map_app]. }
  unfold limit_queue. rewrite <- Hi, length_map, <- map_erase_first_low.
  destruct (Nat.ltb _ _); [|done].
  destruct (erase_first_low hpA _); [done|]. simpl.
  destruct (if hpB (f x) then insert_high hpA x q else q ++ [x]); [done|].
  unfold pop_back. rewrite <- map_removelast. done.
Qed.
End MapQueue.

Lemma lrun_serviced (ops : list qop) :
  forall n q, map s_req (lrun n q ops) = serviced ops (map snd q).
Proof.
  induction ops as [|[p h|] ops IH]; intros n q; simpl; [done| |].
  - unfold playSound. destruct (String.eqb p EmptyString); simpl; [apply IH|].
    rewrite IH. f_equal. exact (map_enqueue snd lhp highPriority (fun _ => eq_refl) _ q).
  - destruct q as [|[l x] q]; simpl; [apply IH|]. f_equal. apply IH.
Qed.

(** C4: along any sequence of [playSound] calls and worker dequeues from
    the empty queue, (1) two serviced requests of the same class are
    serviced in submission order, and (2) a high-priority request is
    serviced after a low-priority one only if it was submitted after that
    one had been dequeued. The mechanism: on a queue made of a
    high-priority block followed by a low-priority block, [playSound]
    inserts a high-priority request at the end of the first block and a
    low-priority one at the end of the queue, and the worker takes the
    front. *)
Theorem service_order :
  (forall ops : list qop,
     ForallOrdPairs fifo_ok (lrun 0 [] ops) /\
     ForallOrdPairs prio_ok (lrun 0 [] ops)) /\
  (forall (x : PendingSound) (hs ls : list PendingSound),
     Forall (fun e => highPriority e = true) hs ->
     Forall (fun e => highPriority e = false) ls ->
     insert_by_priority highPriority x (hs ++ ls) =
       if highPriority x then hs ++ x :: ls else hs ++ ls ++ [x]) /\
  (forall (y : PendingSound) (q : list PendingSound),
     pop_front (y :: q) = Some (y, q)).
Proof.
  split; [|split].
  - intros ops. assert (HI : Inv 0 [] []) by (repeat split; constructor).
    destruct (lrun_props ops 0 [] [] HI) as (_ & Hf & Hp). auto.
  - intros x hs ls Hh Hl. unfold insert_by_priority. destruct (highPriority x).
    + induction Hh as [|h hs Hh1 _ IH]; simpl.
      * destruct ls as [|y ls]; [done|]. inversion Hl as [|? ? Hy _].
        simpl. by rewrite Hy.
      * by rewrite Hh1, IH.
    + by rewrite <- app_assoc.
  - done.
Qed.

(** The insertion rule of C4 on a queue with one request of each class. *)
Lemma service_order_witness :
  Forall (fun e => highPriority e = true) [mkPendingSound "a.wav"%string true] /\
  Forall (fun e => highPriority e = false) [mkPendingSound "b.wav"%string false] /\
  insert_by_priority highPriority (mkPendingSound "c.wav"%string true)
    ([mkPendingSound "a.wav"%string true] ++ [mkPendingSound "b.wav"%string false]) =
    [mkPendingSound "a.wav"%string true; mkPendingSound "c.wav"%string true;
     mkPendingSound "b.wav"%string false].
Proof.
  assert (Hh : Forall (fun e => highPriority e = true) [mkPendingSound "a.wav"%string true])
    by (repeat constructor).
  assert (Hl : Forall (fun e => highPriority e = false) [mkPendingSound "b.wav"%string false])
    by (repeat constructor).
  split; [exact Hh|]. split; [exact Hl|].
  exact (proj1 (proj2 service_order) (mkPendingSound "c.wav"%string true) _ _ Hh Hl).
Defined.

End QueueProofs.

(** * Proofs about the worker loop, the voices and the cache *)
Module PlayerProofs.
Import Player Scenarios PlayerSpecs.

Section WithBackend.
Variable loadFromFile : string -> option SoundBuffer.
Variable cache_begin : gmap string SoundBuffer -> option string.

Lemma take_first_low_Some (a : list SoundInstance) v r :
  take_first_low a = Some (v, r) ->
  exists pre post, a = pre ++ v :: post /\ r = pre ++ post /\
    inst_high v = false /\ Forall (fun i => inst_high i = true) pre.
Proof.
  revert r. induction a as [|w a IH]; intros r H; simpl in H; [done|].
  destruct (inst_high w) eqn:Hw.
  - destruct (take_first_low a) as [[u r']|] eqn:E; [|done].
    injection H as -> <-. destruct (IH r' eq_refl) as (pre & post & -> & -> & Hv & Hp).
    exists (w :: pre), post. repeat split; auto.
  - injection H as -> <-. exists [], a. auto.
Qed.

Lemma take_first_low_None (a : list SoundInstance) :
  take_first_low a = None -> Forall (fun i => inst_high i = true) a.
Proof.
  induction a as [|w a IH]; simpl; intros H; [constructor|].
  destruct (inst_high w) eqn:Hw; [|done].
  destruct (take_first_low a) as [[u r']|]; [done|]. constructor; auto.
Qed.

(** [make_room] on a non-empty vector erases exactly one voice: the first
    low-priority one (which it stops), or else the first one. *)
Lemma make_room_spec (a : list SoundInstance) :
  a <> [] ->
  exists pre v post, a = pre ++ v :: post /\ fst (make_room a) = pre ++ post /\
    ((inst_high v = false /\ Forall (fun i => inst_high i = true) pre /\
      snd (make_room a) = [EvStop (sound v)]) \/
     (pre = [] /\ Forall (fun i => inst_high i = true) a /\ snd (make_room a) = [])).
Proof.
  intros Hne. unfold make_room. destruct (take_first_low a) as [[v r]|] eqn:E.
  - destruct (take_first_low_Some _ _ _ E) as (pre & post & -> & -> & Hv & Hp).
    exists pre, v, post. simpl. auto 10.
  - apply take_first_low_None in E. destruct a as [|v post]; [done|].
    exists [], v, post. simpl. auto 10.
Qed.

Lemma length_processOne (now : Z) (st : PlayerState) :
  length (activeSounds st) <= MAX_CONCURRENT_SOUNDS ->
  length (activeSounds (processOne loadFromFile cache_begin now st))
    <= MAX_CONCURRENT_SOUNDS.
Proof.
  intros Hl. unfold processOne.
  destruct (pendingSounds st) as [|s q'] eqn:Ep; [done|]. cbn [pop_front].
  cbv zeta. unfold set_pending. cbn [activeSounds].
  destruct (Nat.leb_spec MAX_CONCURRENT_SOUNDS (length (activeSounds st))) as [Hc|Hc];
    unfold MAX_CONCURRENT_SOUNDS in *;
    [destruct (highPriority s)|]; simpl.
  - assert (Hne : activeSounds st <> []) by (intros E; rewrite E in Hc; simpl in Hc; lia).
    destruct (make_room_spec _ Hne) as (pre & v & post & Ea & Er & _).
    destruct (make_room (activeSounds st)) as [a2 evs]. simpl in Er. subst a2.
    assert (length pre + length post < length (activeSounds st)).
    { rewrite Ea, !length_app. simpl. lia. }
    destruct (getBuffer loadFromFile cache_begin (path s) (soundBuffers st))
      as [[[b|] c] dec]; simpl; rewrite ?length_app; simpl; lia.
  - simpl. lia.
  - destruct (getBuffer loadFromFile cache_begin (path s) (soundBuffers st))
      as [[[b|] c] dec]; simpl; rewrite ?length_app; simpl; lia.
Qed.

Lemma length_pstep (o : pop) (st : PlayerState) :
  length (activeSounds st) <= MAX_CONCURRENT_SOUNDS ->
  length (activeSounds (pstep loadFromFile cache_begin o st))
    <= MAX_CONCURRENT_SOUNDS.
Proof.
  intros Hl. destruct o as [p h|now|now stopped| |p h|i]; simpl.
  - unfold playSoundS. destruct (playSound p h (pendingSounds st)). done.
  - by apply length_processOne.
  - rewrite length_filter. done.
  - simpl. lia.
  - unfold preloadSound. destruct (String.eqb p EmptyString); [done|].
    destruct (soundBuffers st !! p); [done|].
    destruct h; [destruct (loadFromFile p)|]; done.
  - unfold runPreloadTask. destruct (preloadTasks st !! i); [|done].
    destruct (loadFromFile s); done.
Qed.

Lemma length_prun (ops : list pop) (st : PlayerState) :
  length (activeSounds st) <= MAX_CONCURRENT_SOUNDS ->
  length (activeSounds (prun loadFromFile cache_begin ops st))
    <= MAX_CONCURRENT_SOUNDS.
Proof.
  revert st. induction ops as [|o ops IH]; intros st Hl; simpl; [done|].
  apply IH. by apply length_pstep.
Qed.


Lemma processOne_at_capacity_high (now : Z) (st : PlayerState) s q' :
  pendingSounds st = s :: q' ->
  MAX_CONCURRENT_SOUNDS <= length (activeSounds st) ->
  highPriority s = true ->
  exists pre v post, activeSounds st = pre ++ v :: post /\
    ((inst_high v = false /\ Forall (fun i => inst_high i = true) pre /\
      In (EvStop (sound v)) (events (processOne loadFromFile cache_begin now st))) \/
     (pre = [] /\ Forall (fun i => inst_high i = true) (activeSounds st))) /\
    activeSounds (processOne loadFromFile cache_begin now st)
      = pre ++ post ++ started_voice loadFromFile cache_begin now st s.
Proof.
  intros Ep Hc Hh. unfold processOne, started_voice. rewrite Ep. cbn [pop_front].
  cbv zeta. unfold set_pending. cbn [activeSounds].
  apply Nat.leb_le in Hc. rewrite Hc, Hh.
  assert (Hne : activeSounds st <> []).
  { intros E. apply Nat.leb_le in Hc. rewrite E in Hc. unfold MAX_CONCURRENT_SOUNDS in Hc. simpl in Hc. lia. }
  destruct (make_room_spec _ Hne) as (pre & v & post & Ea & Er & Hcase).
  destruct (make_room (activeSounds st)) as [a2 evs]. simpl in Er, Hcase. subst a2.
  exists pre, v, post. split; [done|]. simpl.
  destruct (getBuffer loadFromFile cache_begin (path s) (soundBuffers st))
    as [[[b|] c] dec] eqn:E; simpl.
  - split; [|by rewrite <- ?app_assoc].
    destruct Hcase as [(H1 & H2 & ->)|(H1 & H2 & _)]; [left|by right].
    repeat split; auto. apply in_or_app. left. apply in_or_app. right. by left.
  - split; [|by rewrite app_nil_r].
    destruct Hcase as [(H1 & H2 & ->)|(H1 & H2 & _)]; [left|by right].
    repeat split; auto. apply in_or_app. left. apply in_or_app. right. by left.
Qed.

Lemma processOne_at_capacity_low (now : Z) (st : PlayerState) s q' :
  pendingSounds st = s :: q' ->
  MAX_CONCURRENT_SOUNDS <= length (activeSounds st) ->
  highPriority s = false ->
  processOne loadFromFile cache_begin now st = set_pending q' st.
Proof.
  intros Ep Hc Hh. unfold processOne. rewrite Ep. cbn [pop_front].
  cbv zeta. replace (activeSounds (set_pending q' st)) with (activeSounds st) by done.
  apply Nat.leb_le in Hc. by rewrite Hc, Hh.
Qed.
End WithBackend.

(** C1 (amended): from a fresh player, after any sequence of [playSound]
    calls, worker iterations, reaps, [stopAllSounds], preloads and
    background preload tasks, at most 32 voices are active. When the worker
    dequeues a high-priority request at capacity, exactly one voice is
    erased: the first low-priority voice, which is stopped, or, if all are
    high-priority, the first (oldest) voice; the new voice is appended only
    if its buffer resolves (cached, or decoded successfully). A
    low-priority request dequeued at capacity is dropped and nothing else
    changes. *)
Theorem voices_bounded_capacity_policy
    (loadFromFile : string -> option SoundBuffer)
    (cache_begin : gmap string SoundBuffer -> option string) :
  (forall ops : list pop,
     length (activeSounds (prun loadFromFile cache_begin ops initPlayer))
       <= MAX_CONCURRENT_SOUNDS) /\
  (forall (now : Z) (st : PlayerState) (s : PendingSound) (q' : list PendingSound),
     pendingSounds st = s :: q' ->
     MAX_CONCURRENT_SOUNDS <= length (activeSounds st) ->
     (highPriority s = true ->
      exists pre v post, activeSounds st = pre ++ v :: post /\
        ((inst_high v = false /\ Forall (fun i => inst_high i = true) pre /\
          In (EvStop (sound v)) (events (processOne loadFromFile cache_begin now st))) \/
         (pre = [] /\ Forall (fun i => inst_high i = true) (activeSounds st))) /\
        activeSounds (processOne loadFromFile cache_begin now st)
          = pre ++ post ++ started_voice loadFromFile cache_begin now st s) /\
     (highPriority s = false ->
      processOne loadFromFile cache_begin now st = set_pending q' st)).
Proof.
  split.
  - intros ops. apply length_prun. simpl. unfold MAX_CONCURRENT_SOUNDS. lia.
  - intros now st s q' Ep Hc. split.
    + by apply (processOne_at_capacity_high _ _ _ _ _ q').
    + by apply processOne_at_capacity_low.
Qed.

(** C1 as stated fails: at capacity with 32 low-priority voices, a
    high-priority request whose file cannot be decoded evicts a voice, and
    no new voice starts. *)
Lemma capacity_eviction_without_new_voice :
  let st' := processOne fail_load first_key 0%Z full_low_state in
  length (activeSounds full_low_state) = MAX_CONCURRENT_SOUNDS /\
  length (activeSounds st') = 31 /\
  pendingSounds st' = [] /\
  existsb (fun v => String.eqb (inst_path v) "missing.wav"%string) (activeSounds st') = false.
Proof. vm_compute. repeat split. Qed.

(** The capacity policy of C1 applied to that state. *)
Lemma voices_bounded_capacity_policy_witness :
  pendingSounds full_low_state = [mkPendingSound "missing.wav"%string true] /\
  MAX_CONCURRENT_SOUNDS <= length (activeSounds full_low_state) /\
  exists pre v post, activeSounds full_low_state = pre ++ v :: post /\
    ((inst_high v = false /\ Forall (fun i => inst_high i = true) pre /\
      In (EvStop (sound v)) (events (processOne fail_load first_key 0%Z full_low_state))) \/
     (pre = [] /\ Forall (fun i => inst_high i = true) (activeSounds full_low_state))) /\
    activeSounds (processOne fail_load first_key 0%Z full_low_state)
      = pre ++ post ++ started_voice fail_load first_key 0%Z full_low_state
                         (mkPendingSound "missing.wav"%string true).
Proof.
  assert (Hp : pendingSounds full_low_state = [mkPendingSound "missing.wav"%string true])
    by reflexivity.
  assert (Hc : MAX_CONCURRENT_SOUNDS <= length (activeSounds full_low_state))
    by (vm_compute; lia).
  split; [exact Hp|]. split; [exact Hc|].
  exact (proj1 (proj2 (voices_bounded_capacity_policy fail_load first_key)
                  0%Z full_low_state _ _ Hp Hc) eq_refl).
Defined.

(** C6 (amended): while a path is in the cache, resolving it returns the
    cached buffer, runs no decode and leaves the cache as it is; preloading
    it is a no-op that returns true. A successful resolution, synchronous
    preload or background preload task installs the path in the cache. *)
Theorem cache_hit_while_cached
    (loadFromFile : string -> option SoundBuffer)
    (cache_begin : gmap string SoundBuffer -> option string) :
  (forall (p : string) (c : gmap string SoundBuffer) (b : SoundBuffer),
     c !! p = Some b -> getBuffer loadFromFile cache_begin p c = (Some b, c, false)) /\
  (forall (p : string) (hp : bool) (st : PlayerState),
     p <> EmptyString -> is_Some (soundBuffers st !! p) ->
     preloadSound loadFromFile cache_begin p hp st = (true, st)) /\
  (forall (p : string) (c c' : gmap string SoundBuffer) (b : SoundBuffer) (dec : bool),
     getBuffer loadFromFile cache_begin p c = (Some b, c', dec) -> c' !! p = Some b) /\
  (forall (p : string) (st st' : PlayerState),
     preloadSound loadFromFile cache_begin p true st = (true, st') ->
     is_Some (soundBuffers st' !! p)) /\
  (forall (i : nat) (p : string) (st : PlayerState) (b : SoundBuffer),
     preloadTasks st !! i = Some p -> loadFromFile p = Some b ->
     soundBuffers (runPreloadTask loadFromFile cache_begin i st) !! p = Some b).
Proof.
  split; [|split; [|split; [|split]]].
  - intros p c b H. unfold getBuffer. by rewrite H.
  - intros p hp st Hne [b Hb]. unfold preloadSound.
    destruct (String.eqb_spec p EmptyString); [done|]. by rewrite Hb.
  - intros p c c' b dec H. unfold getBuffer in H.
    destruct (c !! p) as [b'|] eqn:Hc.
    + injection H as -> <- _. done.
    + destruct (loadFromFile p) as [b'|]; [|done]. injection H as -> <- _.
      unfold cache_insert. apply lookup_insert_eq.
  - intros p st st' H. unfold preloadSound in H.
    destruct (String.eqb p EmptyString); [done|].
    destruct (soundBuffers st !! p) eqn:Hc; [injection H as <-; by rewrite Hc|].
    destruct (loadFromFile p) as [b|]; [|done]. injection H as <-. simpl.
    unfold cache_insert. rewrite lookup_insert_eq. by eexists.
  - intros i p st b Hi Hb. unfold runPreloadTask. rewrite Hi, Hb. simpl.
    unfold cache_insert. apply lookup_insert_eq.
Qed.

(** A cache hit of C6 on a cache holding one path. *)
Lemma cache_hit_while_cached_witness :
  one_cache !! "a.wav"%string = Some (mkSoundBuffer 120) /\
  getBuffer fail_load first_key "a.wav"%string one_cache =
    (Some (mkSoundBuffer 120), one_cache, false).
Proof.
  assert (Hc : one_cache !! "a.wav"%string = Some (mkSoundBuffer 120)) by reflexivity.
  split; [exact Hc|].
  exact (proj1 (cache_hit_while_cached fail_load first_key) _ _ _ Hc).
Defined.

(** C6 as stated fails: the worker resolves 100 distinct paths (all decoded
    and installed) and then a 101st; the full cache evicts one of the
    first hundred, and resolving that path again decodes it again. *)
Lemma cached_path_decoded_again :
  let c100 := get_all ok_load first_key (map path_n (seq 0 100)) ∅ in
  let c101 := get_all ok_load first_key [path_n 100] c100 in
  c100 !! path_n 99 = Some (mkSoundBuffer 120) /\
  snd (getBuffer ok_load first_key (path_n 99) c101) = true.
Proof. vm_compute. split; reflexivity. Qed.

End PlayerProofs.


(** * Proofs about the hook manager *)

Module HookProofs.
Import Hook HookSpecs.
Local Open Scope Z_scope.

Section WithCatalog.
Variable g : Z -> bool -> string.

Lemma preload_key_with (k : Z) (hp : bool) :
  Forall (preload_with hp) (preload_key g k hp).
Proof.
  unfold preload_key.
  destruct (String.eqb (g k true) EmptyString), (String.eqb (g k false) EmptyString);
    simpl; repeat constructor.
Qed.

Lemma flat_map_preload_with (ks : list Z) (hp : bool) :
  Forall (preload_with hp) (flat_map (fun k => preload_key g k hp) ks).
Proof.
  induction ks as [|k ks IH]; simpl; [constructor|].
  apply Forall_app. split; [apply preload_key_with|exact IH].
Qed.

Lemma prefetch_loop_take (keys : list Z) (count K : nat) (hp : bool) :
  prefetch_loop g keys count K hp =
    flat_map (fun k => preload_key g k hp) (take (K - count)%nat keys).
Proof.
  revert count. induction keys as [|k ks IH]; intros count; simpl.
  - by rewrite take_nil.
  - destruct (Nat.leb_spec K count).
    + by replace (K - count)%nat with 0%nat by lia.
    + replace (K - count)%nat with (S (K - S count)) by lia. simpl.
      by rewrite IH.
Qed.

Lemma preloadPredictedKeys_take (base : Z) (st : HookState) :
  exists ks,
    (length ks <= Z.to_nat (latencyOptimizationLevel st))%nat /\
    NoDup ks /\
    Forall (fun k => exists fs, keyFollowers st !! base = Some fs /\ k ∈ fs) ks /\
    preloadPredictedKeys g base st =
      flat_map (fun k => preload_key g k (Z.leb 3 (latencyOptimizationLevel st))) ks.
Proof.
  unfold preloadPredictedKeys.
  destruct (Z.ltb_spec (latencyOptimizationLevel st) 1).
  - exists []. simpl. repeat split; [lia|constructor|constructor].
  - destruct (keyFollowers st !! base) as [fs|] eqn:Hf.
    + exists (take (Z.to_nat (latencyOptimizationLevel st)) (elements fs)).
      repeat split.
      * rewrite length_take. lia.
      * pose proof (NoDup_elements fs) as Hn.
        rewrite <- (take_drop (Z.to_nat (latencyOptimizationLevel st)) (elements fs)) in Hn.
        by apply NoDup_app in Hn as [? _].
      * apply Forall_forall. intros k Hk. exists fs. split; [done|].
        apply elem_of_elements. apply elem_of_take in Hk as (i & Hi & _).
        by eapply list_elem_of_lookup_2.
      * rewrite prefetch_loop_take. by rewrite Nat.sub_0_r.
    + exists []. simpl. repeat split; [lia|constructor|constructor].
Qed.

Lemma down_trigger_app (a b : list Req) :
  down_trigger (a ++ b) = down_trigger a || down_trigger b.
Proof. unfold down_trigger. apply existsb_app. Qed.

Lemma down_trigger_preloads (hp : bool) (rs : list Req) :
  Forall (preload_with hp) rs -> down_trigger rs = false.
Proof.
  induction 1 as [|r rs Hr _ IH]; [done|].
  destruct r; simpl in Hr; [contradiction|]. exact IH.
Qed.

Lemma down_trigger_predicted (vk : Z) (st : HookState) :
  down_trigger (preloadPredictedKeys g vk st) = false.
Proof.
  destruct (preloadPredictedKeys_take vk st) as (ks & _ & _ & _ & ->).
  eapply down_trigger_preloads, flat_map_preload_with.
Qed.

(** What one [handleKeyDown] does to the state, and when it triggers. *)
Lemma handleKeyDown_spec (vk now : Z) (st : HookState) :
  let L := latencyOptimizationLevel st in
  let r := handleKeyDown g vk now st in
  keyTimestamps (fst r) = <[vk := now]> (keyTimestamps st) /\
  recentKeys (fst r) =
    (if Z.ltb 0 L then trim_front KEY_HISTORY_LENGTH (recentKeys st ++ [vk])
     else recentKeys st) /\
  keyFollowers (fst r) =
    match last (recentKeys st) with
    | Some prev =>
        if Z.ltb 0 L
        then <[prev := {[vk]} ∪ default ∅ (keyFollowers st !! prev)]> (keyFollowers st)
        else keyFollowers st
    | None => keyFollowers st
    end /\
  latencyOptimizationLevel (fst r) = L /\
  down_trigger (snd r) =
    shouldPlayDown vk now st && negb (String.eqb (g vk true) EmptyString).
Proof.
  cbv zeta. unfold handleKeyDown. cbn [recentKeys latencyOptimizationLevel set_timestamps].
  destruct (last (recentKeys st)) as [prev|];
    destruct (Z.ltb 0 (latencyOptimizationLevel st));
    cbn [fst snd keyTimestamps recentKeys keyFollowers latencyOptimizationLevel
         set_learning set_timestamps];
    (repeat split);
    rewrite ?down_trigger_app, ?down_trigger_predicted; simpl;
    unfold shouldPlayDown; cbn [keyTimestamps set_timestamps];
    destruct (keyTimestamps st !! vk) as [t|]; simpl;
    try destruct (negb (Z.ltb (ms_since now t) KEY_PROCESSING_INTERVAL));
    destruct (String.eqb (g vk true) EmptyString); reflexivity.
Qed.

(** One hook call changes a key's timestamp only by setting it to the
    time of the call. *)
Lemma step_timestamps (ev : HookEvent) (st : HookState) (k : Z) :
  keyTimestamps (fst (KeyboardHookProc g ev st)) !! k = keyTimestamps st !! k \/
  keyTimestamps (fst (KeyboardHookProc g ev st)) !! k = Some (time ev).
Proof.
  unfold KeyboardHookProc.
  destruct (negb (Z.eqb (nCode ev) HC_ACTION) || negb (has_instance st)); [by left|].
  destruct (negb (shouldProcessKey (to_WORD (vkCode ev)) st)); [by left|].
  destruct (Z.eqb (wParam ev) WM_KEYDOWN || Z.eqb (wParam ev) WM_SYSKEYDOWN).
  - destruct (negb (Z.eqb (Z.land (flags ev) LLKHF_INJECTED) 0)); [by left|].
    destruct (bool_decide (to_WORD (vkCode ev) ∈ pressedKeys st)); [by left|].
    destruct (handleKeyDown_spec (to_WORD (vkCode ev)) (time ev)
                (set_pressed ({[to_WORD (vkCode ev)]} ∪ pressedKeys st) st))
      as (-> & _).
    cbn [keyTimestamps set_pressed].
    destruct (decide (k = to_WORD (vkCode ev))) as [->|Hne].
    + right. apply lookup_insert_eq.
    + left. by apply lookup_insert_ne.
  - destruct (Z.eqb (wParam ev) WM_KEYUP || Z.eqb (wParam ev) WM_SYSKEYUP); [|by left].
    destruct (negb (Z.eqb (Z.land (flags ev) LLKHF_INJECTED) 0)); by left.
Qed.

(** A hook call that triggers a key-down sound is an accepted key-down of
    its key code: the debounce let it through and the key's timestamp is
    now the time of the call. *)
Lemma step_trigger (ev : HookEvent) (st : HookState) :
  down_trigger (snd (KeyboardHookProc g ev st)) = true ->
  shouldPlayDown (to_WORD (vkCode ev)) (time ev) st = true /\
  keyTimestamps (fst (KeyboardHookProc g ev st)) !! to_WORD (vkCode ev) = Some (time ev).
Proof.
  unfold KeyboardHookProc.
  destruct (negb (Z.eqb (nCode ev) HC_ACTION) || negb (has_instance st)); [done|].
  destruct (negb (shouldProcessKey (to_WORD (vkCode ev)) st)); [done|].
  destruct (Z.eqb (wParam ev) WM_KEYDOWN || Z.eqb (wParam ev) WM_SYSKEYDOWN).
  - destruct (negb (Z.eqb (Z.land (flags ev) LLKHF_INJECTED) 0)); [done|].
    destruct (bool_decide (to_WORD (vkCode ev) ∈ pressedKeys st)); [done|].
    destruct (handleKeyDown_spec (to_WORD (vkCode ev)) (time ev)
                (set_pressed ({[to_WORD (vkCode ev)]} ∪ pressedKeys st) st))
      as (-> & _ & _ & _ & ->).
    intros H. apply andb_prop in H as [H _]. split; [exact H|].
    apply lookup_insert_eq.
  - destruct (Z.eqb (wParam ev) WM_KEYUP || Z.eqb (wParam ev) WM_SYSKEYUP); [|done].
    destruct (negb (Z.eqb (Z.land (flags ev) LLKHF_INJECTED) 0)); [done|].
    cbn [snd]. unfold handleKeyUp.
    destruct (match _ with Some t => _ | None => true end); [|done].
    destruct (String.eqb _ EmptyString); done.
Qed.

Lemma debounce_gap (now t : Z) :
  t <= now -> negb (Z.ltb (ms_since now t) KEY_PROCESSING_INTERVAL) = true ->
  t + 25000000 <= now.
Proof.
  intros Hle H. apply negb_true_iff, Z.ltb_ge in H.
  unfold ms_since, KEY_PROCESSING_INTERVAL in H.
  rewrite Z.quot_div_nonneg in H by lia.
  pose proof (Z.mul_div_le (now - t) 1000000 ltac:(lia)). lia.
Qed.

(** Once key [k] carries a timestamp in [[tA, t0]], every later trigger
    for [k] comes at least 25 ms after [tA]. *)
Lemma hrun_after (evs : list HookEvent) (st : HookState) (k tA t0 : Z) :
  times_from t0 evs = true ->
  (exists t, keyTimestamps st !! k = Some t /\ tA <= t <= t0) ->
  Forall (fun e => to_WORD (vkCode (fst e)) = k -> down_trigger (snd e) = true ->
                   tA + 25000000 <= time (fst e))
    (snd (hrun g evs st)).
Proof.
  revert st t0. induction evs as [|ev r IH]; intros st t0 Ht (t & Hk & Hbt).
  - constructor.
  - simpl in Ht. apply andb_prop in Ht as [H0 Hr]. apply Z.leb_le in H0.
    simpl. pose proof (step_timestamps ev st k) as Hstep.
    pose proof (step_trigger ev st) as Htrig.
    destruct (KeyboardHookProc g ev st) as [st1 rs].
    destruct (hrun g r st1) as [st2 log] eqn:Hrun. cbn [snd fst] in *.
    constructor.
    + intros Hkey Htr. cbn [fst snd] in Hkey, Htr |- *.
      destruct (Htrig Htr) as [Hsp _]. subst k.
      unfold shouldPlayDown in Hsp. rewrite Hk in Hsp.
      pose proof (debounce_gap (time ev) t ltac:(lia) Hsp). lia.
    + replace log with (snd (hrun g r st1)) by (by rewrite Hrun).
      apply (IH st1 (time ev) Hr).
      destruct Hstep as [-> | ->]; [exists t | exists (time ev)]; split; auto; lia.
Qed.

Lemma stamps_before_spec (ts : gmap Z Z) (t0 : Z) :
  stamps_before ts t0 = true -> forall k t, ts !! k = Some t -> t <= t0.
Proof.
  unfold stamps_before. intros H k t Hk.
  apply (proj1 (List.forallb_forall _ _)) with (x := (k, t)) in H.
  - by apply Z.leb_le in H.
  - apply list_elem_of_In. by apply elem_of_map_to_list.
Qed.

Lemma hrun_debounce (evs : list HookEvent) (st : HookState) (t0 : Z) :
  times_from t0 evs = true ->
  (forall k t, keyTimestamps st !! k = Some t -> t <= t0) ->
  ForallOrdPairs debounce_ok (snd (hrun g evs st)).
Proof.
  revert st t0. induction evs as [|ev r IH]; intros st t0 Ht Hts.
  - constructor.
  - simpl in Ht. apply andb_prop in Ht as [H0 Hr]. apply Z.leb_le in H0.
    simpl. pose proof (step_timestamps ev st) as Hstep.
    pose proof (step_trigger ev st) as Htrig.
    destruct (KeyboardHookProc g ev st) as [st1 rs].
    destruct (hrun g r st1) as [st2 log] eqn:Hrun. cbn [snd fst] in *.
    replace log with (snd (hrun g r st1)) by (by rewrite Hrun).
    constructor.
    + destruct (down_trigger rs) eqn:Htr.
      * destruct (Htrig eq_refl) as [_ Hk].
        eapply Forall_impl.
        { apply (hrun_after r st1 (to_WORD (vkCode ev)) (time ev) (time ev) Hr).
          exists (time ev). split; [exact Hk|lia]. }
        intros e He Hkey _ Hte. cbn [fst snd] in *. apply He; [congruence|exact Hte].
      * apply List.Forall_forall. intros e _ _ Hf. cbn [snd] in Hf. congruence.
    + apply (IH st1 (time ev) Hr). intros k t Hk.
      destruct (Hstep k) as [Hs | Hs]; rewrite Hs in Hk.
      * specialize (Hts k t Hk). lia.
      * injection Hk as <-. lia.
Qed.
End WithCatalog.

(** C5 (amended): over any run of the hook procedure whose event times
    never decrease (and start no earlier than every stored key timestamp),
    two key-down sound triggers for the same key code are at least 25 ms
    apart. Each accepted key-down sets the key's timestamp whether or not
    the debounce suppresses its sound; the history ring is appended to and
    trimmed to 5, and the follower map records the previous key, only when
    the optimization level is above 0 (the follower map also needs a
    non-empty history), and these updates do not depend on the debounce. *)
Theorem debounce_spacing (g : Z -> bool -> string) :
  (forall (evs : list HookEvent) (st : HookState) (t0 : Z),
     times_from t0 evs = true ->
     stamps_before (keyTimestamps st) t0 = true ->
     ForallOrdPairs debounce_ok (snd (hrun g evs st))) /\
  (forall (vk now : Z) (st : HookState),
     let L := latencyOptimizationLevel st in
     let r := handleKeyDown g vk now st in
     keyTimestamps (fst r) = <[vk := now]> (keyTimestamps st) /\
     recentKeys (fst r) =
       (if Z.ltb 0 L then trim_front KEY_HISTORY_LENGTH (recentKeys st ++ [vk])
        else recentKeys st) /\
     keyFollowers (fst r) =
       match last (recentKeys st) with
       | Some prev =>
           if Z.ltb 0 L
           then <[prev := {[vk]} ∪ default ∅ (keyFollowers st !! prev)]> (keyFollowers st)
           else keyFollowers st
       | None => keyFollowers st
       end /\
     latencyOptimizationLevel (fst r) = L /\
     down_trigger (snd r) =
       shouldPlayDown vk now st && negb (String.eqb (g vk true) EmptyString)).
Proof.
  split.
  - intros evs st t0 Ht Hs. eapply hrun_debounce; [exact Ht|].
    by apply stamps_before_spec.
  - intros vk now st. apply handleKeyDown_spec.
Qed.

(** The debounce applied to a burst on key 'A': downs at 0, 5, 30 and
    40 ms with an up in between. *)
Lemma debounce_spacing_witness :
  let evs := [ev_down 65 0; ev_up 65 1000000; ev_down 65 5000000;
              ev_up 65 6000000; ev_down 65 30000000; ev_up 65 31000000;
              ev_down 65 40000000] in
  times_from 0 evs = true /\ stamps_before (keyTimestamps initHook) 0 = true /\
  ForallOrdPairs debounce_ok (snd (hrun cat evs initHook)).
Proof.
  cbv zeta.
  assert (Ht : times_from 0 [ev_down 65 0; ev_up 65 1000000; ev_down 65 5000000;
              ev_up 65 6000000; ev_down 65 30000000; ev_up 65 31000000;
              ev_down 65 40000000] = true) by reflexivity.
  assert (Hs : stamps_before (keyTimestamps initHook) 0 = true) by reflexivity.
  split; [exact Ht|]. split; [exact Hs|].
  exact (proj1 (debounce_spacing cat) _ initHook 0 Ht Hs).
Defined.

(** C5 as stated fails: at optimization level 0, a key-down suppressed by
    the debounce (5 ms after the previous down of 'A') updates the key's
    timestamp, but neither the history ring nor the follower map. *)
Lemma suppressed_down_skips_history :
  let st0 := fst (setLatencyOptimization cat 0 initHook) in
  let r := hrun cat [ev_down 65 0; ev_up 65 1000000; ev_down 65 5000000] st0 in
  map snd (snd r) = [[ReqPlay "down.wav"%string true]; []; []] /\
  keyTimestamps (fst r) !! 65 = Some 5000000 /\
  recentKeys (fst r) = [] /\
  keyFollowers (fst r) = ∅.
Proof. vm_compute. repeat split. Qed.

(** C7: while filtering is enabled, a hook call for a filtered key code
    changes nothing and calls nothing in the player (it only passes the
    message on); so does any run of such calls. *)
Theorem filtered_key_ignored (g : Z -> bool -> string) :
  (forall (ev : HookEvent) (st : HookState),
     keyFilteringEnabled st = true -> to_WORD (vkCode ev) ∈ filteredKeys st ->
     KeyboardHookProc g ev st = (st, [])) /\
  (forall (evs : list HookEvent) (st : HookState),
     keyFilteringEnabled st = true ->
     Forall (fun ev => to_WORD (vkCode ev) ∈ filteredKeys st) evs ->
     hrun g evs st = (st, map (fun ev => (ev, [])) evs)).
Proof.
  assert (H1 : forall (ev : HookEvent) (st : HookState),
     keyFilteringEnabled st = true -> to_WORD (vkCode ev) ∈ filteredKeys st ->
     KeyboardHookProc g ev st = (st, [])).
  { intros ev st He Hf. unfold KeyboardHookProc, shouldProcessKey.
    rewrite He, (bool_decide_eq_true_2 _ Hf).
    by destruct (negb (Z.eqb (nCode ev) HC_ACTION) || negb (has_instance st)). }
  split; [exact H1|].
  intros evs st He Hall. induction Hall as [|ev evs Hf _ IH]; [done|].
  simpl. by rewrite (H1 ev st He Hf), IH.
Qed.

(** A key-down of the filtered key 'A'. *)
Lemma filtered_key_ignored_witness :
  keyFilteringEnabled filtering_A = true /\
  to_WORD (vkCode (ev_down 65 0)) ∈ filteredKeys filtering_A /\
  KeyboardHookProc cat (ev_down 65 0) filtering_A = (filtering_A, []).
Proof.
  assert (He : keyFilteringEnabled filtering_A = true) by reflexivity.
  assert (Hf : to_WORD (vkCode (ev_down 65 0)) ∈ filteredKeys filtering_A)
    by (vm_compute; reflexivity).
  split; [exact He|]. split; [exact Hf|].
  exact (proj1 (filtered_key_ignored cat) _ _ He Hf).
Defined.

(** C8: the prefetch for a key preloads, for each of at most L distinct
    followers of that key (L the optimization level, so none when L <= 0),
    its down and then its up sound when non-empty, all with the priority
    [3 <= L]; the level set by [setLatencyOptimization] is in [0, 3]. *)
Theorem predictive_prefetch_bounded (g : Z -> bool -> string) :
  (forall (base : Z) (st : HookState),
     exists ks,
       (length ks <= Z.to_nat (latencyOptimizationLevel st))%nat /\
       NoDup ks /\
       Forall (fun k => exists fs, keyFollowers st !! base = Some fs /\ k ∈ fs) ks /\
       preloadPredictedKeys g base st =
         flat_map (fun k => preload_key g k (Z.leb 3 (latencyOptimizationLevel st))) ks /\
       Forall (preload_with (Z.leb 3 (latencyOptimizationLevel st)))
         (preloadPredictedKeys g base st)) /\
  (forall (level : Z) (st : HookState),
     0 <= latencyOptimizationLevel (fst (setLatencyOptimization g level st)) <= 3).
Proof.
  split.
  - intros base st.
    destruct (preloadPredictedKeys_take g base st) as (ks & Hl & Hn & Hf & He).
    exists ks. repeat split; try assumption.
    rewrite He. apply flat_map_preload_with.
  - intros level st. unfold setLatencyOptimization.
    destruct (Z.eqb _ 0); [simpl; lia|].
    destruct (Z.eqb _ 1); [simpl; lia|].
    destruct (Z.eqb _ 2); simpl; lia.
Qed.

(** C9 (amended): constructing a hook manager always succeeds; it sets the
    process-wide [instance_] to the new object, and, if an instance was
    already registered, only writes a warning to [std::cerr]. *)
Theorem construct_overwrites_instance (self : nat) (gl : Globals) :
  instance_ (construct self gl) = Some self /\
  cerr (construct self gl) =
    cerr gl ++ match instance_ gl with
               | Some _ => ["Warning: Multiple KeyboardHookManager instances created."%string]
               | None => []
               end.
Proof. split; reflexivity. Qed.

(** C9 as stated fails: a second construction while the first instance is
    registered does not fail; the pointer now names the second object. *)
Lemma second_instance_replaces_first :
  construct 2 (construct 1 (mkGlobals None [])) =
    mkGlobals (Some 2%nat) ["Warning: Multiple KeyboardHookManager instances created."%string].
Proof. reflexivity. Qed.

End HookProofs.

(** * Further properties of the player, the hook procedure and the sound
    manager *)

Module PlayerExtraProofs.
Import Player PlayerExt Scenarios ExtSpecs.

Section WithBackend.
Variable loadFromFile : string -> option SoundBuffer.
Variable cache_begin : gmap string SoundBuffer -> option string.

Abbreviation ps := (pstep loadFromFile cache_begin).

Lemma make_room_sublist (a : list SoundInstance) :
  fst (make_room a) `sublist_of` a.
Proof.
  unfold make_room. revert a.
  assert (H : forall a v r, take_first_low a = Some (v, r) -> r `sublist_of` a).
  { induction a as [|w a IH]; intros v r H; [done|]. simpl in H.
    destruct (inst_high w).
    - destruct (take_first_low a) as [[v' r']|] eqn:E; [|done].
      injection H as <- <-. apply sublist_skip. by eapply IH.
    - injection H as <- <-. by apply sublist_cons. }
  intros a. destruct (take_first_low a) as [[v r]|] eqn:E.
  - eapply H; eauto.
  - destruct a; simpl; [done|]. by apply sublist_cons.
Qed.

(** The shape of one worker iteration on the voices, the sound ids, the
    cache, the volume and the events. *)
Lemma processOne_shape (now : Z) (st : PlayerState) :
  let st' := processOne loadFromFile cache_begin now st in
  volume st' = volume st /\
  (exists e, events st' = events st ++ e /\
     Forall (plays_at (volume st)) e) /\
  ((activeSounds st' `sublist_of` activeSounds st /\ next_sound st' = next_sound st) \/
   (exists a' i, a' `sublist_of` activeSounds st /\ activeSounds st' = a' ++ [i] /\
      sound i = next_sound st /\ next_sound st' = S (next_sound st))) /\
  (soundBuffers st' = soundBuffers st \/
   exists p b, loadFromFile p = Some b /\ soundBuffers st' = cache_insert cache_begin p b (soundBuffers st)).
Proof.
  cbv zeta. unfold processOne.
  destruct (pendingSounds st) as [|s q']; cbn [pop_front].
  { split; [done|]. split; [exists []; rewrite app_nil_r; split; [done|constructor]|].
    split; left; done. }
  cbn [activeSounds set_pending].
  set (room := if Nat.leb MAX_CONCURRENT_SOUNDS (length (activeSounds st))
               then if highPriority s then Some (make_room (activeSounds st)) else None
               else Some (activeSounds st, [])).
  assert (Hroom : forall a2 evs, room = Some (a2, evs) ->
            a2 `sublist_of` activeSounds st /\
            Forall (plays_at (volume st)) evs).
  { intros a2 evs Hr. unfold room in Hr.
    destruct (Nat.leb _ _); [destruct (highPriority s)|]; try discriminate.
    - injection Hr as Hr. pose proof (make_room_sublist (activeSounds st)) as Hs.
      unfold make_room in Hr, Hs |- *.
      destruct (take_first_low _) as [[v r]|]; [|destruct (activeSounds st)];
        injection Hr as <- <-; split; try done; repeat constructor.
    - injection Hr as <- <-. done. }
  destruct room as [[a2 evs]|].
  2:{ cbn. split; [done|]. split; [exists []; rewrite app_nil_r; split; [done|constructor]|].
      split; left; done. }
  destruct (Hroom a2 evs eq_refl) as [Hsub Hevs].
  cbn [soundBuffers emit set_active].
  destruct (getBuffer loadFromFile cache_begin (path s) (soundBuffers st)) as [[[b|] c] dec] eqn:Eg;
    cbn [pendingSounds activeSounds soundBuffers preloadTasks volume next_sound events emit set_active set_pending];
    rewrite Eg;
    cbn [pendingSounds activeSounds soundBuffers preloadTasks volume next_sound events emit set_active set_pending].
  - split; [done|]. split; [|split].
    + exists (evs ++ (if dec then [EvDecode (path s)] else []) ++ [EvPlay (next_sound st) (path s) (volume st)]).
      rewrite !app_assoc. split; [done|].
      apply Forall_app. split; [apply Forall_app; split; [done|destruct dec; repeat constructor]|].
      repeat constructor.
    + right. exists a2, (mkSoundInstance (next_sound st) (now + (duration_ms b + 200)) (path s) (highPriority s)).
      done.
    + unfold getBuffer in Eg. destruct (soundBuffers st !! path s).
      * injection Eg as _ <- _. by left.
      * destruct (loadFromFile (path s)) as [b'|] eqn:El; [|done].
        injection Eg as <- <- _. right. by exists (path s), b'.
  - split; [done|]. split; [|split].
    + exists (evs ++ [EvDecode (path s)]). rewrite app_assoc. split; [done|].
      apply Forall_app. split; [done|repeat constructor].
    + left. done.
    + left. done.
Qed.

Lemma pstep_shape (o : pop) (st : PlayerState) :
  let st' := ps o st in
  volume st' = volume st /\
  (exists e, events st' = events st ++ e /\ Forall (plays_at (volume st)) e) /\
  ((activeSounds st' `sublist_of` activeSounds st /\ next_sound st' = next_sound st) \/
   (exists a' i, a' `sublist_of` activeSounds st /\ activeSounds st' = a' ++ [i] /\
      sound i = next_sound st /\ next_sound st' = S (next_sound st))) /\
  (soundBuffers st' = soundBuffers st \/
   exists p b, loadFromFile p = Some b /\ soundBuffers st' = cache_insert cache_begin p b (soundBuffers st)).
Proof.
  cbv zeta.
  assert (Hsame : forall st', volume st' = volume st -> events st' = events st ->
            activeSounds st' = activeSounds st -> next_sound st' = next_sound st ->
            soundBuffers st' = soundBuffers st ->
            volume st' = volume st /\
            (exists e, events st' = events st ++ e /\ Forall (plays_at (volume st)) e) /\
            ((activeSounds st' `sublist_of` activeSounds st /\ next_sound st' = next_sound st) \/
             (exists a' i, a' `sublist_of` activeSounds st /\ activeSounds st' = a' ++ [i] /\
                sound i = next_sound st /\ next_sound st' = S (next_sound st))) /\
            (soundBuffers st' = soundBuffers st \/
             exists p b, loadFromFile p = Some b /\
               soundBuffers st' = cache_insert cache_begin p b (soundBuffers st))).
  { intros st' H1 H2 H3 H4 H5. rewrite H1, H2, H3, H4, H5.
    split; [done|]. split; [exists []; rewrite app_nil_r; split; [done|constructor]|].
    split; left; done. }
  destruct o as [p h|now|now stopped| |p h|i]; simpl.
  - unfold playSoundS. destruct (playSound p h (pendingSounds st)). by apply Hsame.
  - exact (processOne_shape now st).
  - unfold cleanupFinishedSounds, set_active. simpl.
    split; [done|]. split; [exists []; rewrite app_nil_r; split; [done|constructor]|].
    split; left; [split; [apply sublist_filter|done]|done].
  - unfold stopAllSounds, emit, set_active, set_pending. simpl.
    split; [done|]. split.
    + eexists. split; [reflexivity|]. apply Forall_forall. intros ev Hev.
      apply list_elem_of_In, List.in_map_iff in Hev as (i & <- & _). exact I.
    + split; left; [split; [apply sublist_nil_l|done]|done].
  - unfold preloadSound.
    destruct (String.eqb p EmptyString); [by apply Hsame|].
    destruct (soundBuffers st !! p); [by apply Hsame|].
    destruct h; [destruct (loadFromFile p) as [b|] eqn:El|]; simpl.
    + split; [done|]. split; [exists [EvDecode p]; split; [done|repeat constructor]|].
      split; [left; done|right; by exists p, b].
    + split; [done|]. split; [exists [EvDecode p]; split; [done|repeat constructor]|].
      split; left; done.
    + by apply Hsame.
  - unfold runPreloadTask.
    destruct (preloadTasks st !! i) as [p|]; [|by apply Hsame].
    destruct (loadFromFile p) as [b|] eqn:El; simpl.
    + split; [done|]. split; [exists [EvDecode p]; split; [done|repeat constructor]|].
      split; [left; done|right; by exists p, b].
    + split; [done|]. split; [exists [EvDecode p]; split; [done|repeat constructor]|].
      split; left; done.
Qed.

Lemma sublist_map' {A B : Type} (f : A -> B) (l1 l2 : list A) :
  l1 `sublist_of` l2 -> map f l1 `sublist_of` map f l2.
Proof. induction 1; simpl; by constructor. Qed.

Lemma Forall_sublist' {A : Type} (P : A -> Prop) (l1 l2 : list A) :
  l1 `sublist_of` l2 -> Forall P l2 -> Forall P l1.
Proof.
  induction 1 as [|x l1 l2 _ IH|x l1 l2 _ IH]; intros Hf; [done| |];
    inversion Hf; subst; [constructor|]; auto.
Qed.

Lemma ids_step (o : pop) (st : PlayerState) :
  NoDup (map sound (activeSounds st)) ->
  Forall (fun i => sound i < next_sound st) (activeSounds st) ->
  NoDup (map sound (activeSounds (ps o st))) /\
  Forall (fun i => sound i < next_sound (ps o st)) (activeSounds (ps o st)).
Proof.
  intros Hn Hf. destruct (pstep_shape o st) as (_ & _ & Ha & _).
  destruct Ha as [[Hs Hnx] | (a' & i & Hs & Ha & Hi & Hnx)].
  - rewrite Hnx. split.
    + eapply sublist_NoDup; [exact Hn|]. by apply sublist_map'.
    + eapply Forall_sublist'; eauto.
  - rewrite Ha, Hnx. assert (Hf' : Forall (fun i => sound i < next_sound st) a')
      by (eapply Forall_sublist'; eauto).
    split.
    + rewrite map_app. apply NoDup_app. split; [|split].
      * eapply sublist_NoDup; [exact Hn|]. by apply sublist_map'.
      * intros x Hx Hx'. apply list_elem_of_singleton in Hx'. simpl in Hx'. subst x.
        apply list_elem_of_In, List.in_map_iff in Hx as (j & Hj & Hin).
        rewrite List.Forall_forall in Hf'. specialize (Hf' j Hin). lia.
      * apply NoDup_singleton.
    + apply Forall_app. split.
      * eapply Forall_impl; [exact Hf'|]. intros j Hj. simpl in Hj. lia.
      * constructor; [lia|constructor].
Qed.

Lemma coherent_cache_insert (p : string) (b : SoundBuffer) (c : gmap string SoundBuffer) :
  loadFromFile p = Some b ->
  (forall q b', c !! q = Some b' -> loadFromFile q = Some b') ->
  forall q b', cache_insert cache_begin p b c !! q = Some b' -> loadFromFile q = Some b'.
Proof.
  intros Hb Hc q b' Hq. unfold cache_insert in Hq.
  destruct (decide (q = p)) as [->|Hne].
  - rewrite lookup_insert_eq in Hq. by injection Hq as <-.
  - rewrite lookup_insert_ne in Hq by congruence. apply Hc.
    destruct (Nat.leb _ _); [|exact Hq].
    destruct (cache_begin c) as [k|]; [|exact Hq].
    destruct (decide (q = k)) as [->|Hk].
    + by rewrite lookup_delete_eq in Hq.
    + by rewrite lookup_delete_ne in Hq by congruence.
Qed.

Lemma size_cache_insert (p : string) (b : SoundBuffer) (c : gmap string SoundBuffer) :
  begin_in_map cache_begin ->
  size c <= MAX_CACHE_SIZE ->
  size (cache_insert cache_begin p b c) <= MAX_CACHE_SIZE.
Proof.
  intros Hbeg Hs. unfold cache_insert, MAX_CACHE_SIZE in *.
  destruct (Nat.leb_spec 100 (size c)).
  - assert (Hne : c <> ∅) by (intros ->; rewrite map_size_empty in *; lia).
    destruct (Hbeg c Hne) as (k & -> & Hk).
    pose proof (map_size_delete_Some k c Hk).
    rewrite map_size_insert. destruct (delete k c !! p); simpl; lia.
  - rewrite map_size_insert. destruct (c !! p); simpl; lia.
Qed.

End WithBackend.

(** X1: the sound objects of the active voices are distinct, and each was
    created before the next one to be created. *)
Theorem voice_ids_distinct
    (loadFromFile : string -> option SoundBuffer)
    (cache_begin : gmap string SoundBuffer -> option string) (ops : list pop) :
  let st := prun loadFromFile cache_begin ops initPlayer in
  NoDup (map sound (activeSounds st)) /\
  Forall (fun i => sound i < next_sound st) (activeSounds st).
Proof.
  cbv zeta. assert (H : forall st,
    NoDup (map sound (activeSounds st)) ->
    Forall (fun i => sound i < next_sound st) (activeSounds st) ->
    NoDup (map sound (activeSounds (prun loadFromFile cache_begin ops st))) /\
    Forall (fun i => sound i < next_sound (prun loadFromFile cache_begin ops st))
      (activeSounds (prun loadFromFile cache_begin ops st))).
  { induction ops as [|o ops IH]; intros st Hn Hf; simpl; [done|].
    destruct (ids_step loadFromFile cache_begin o st Hn Hf). by apply IH. }
  apply H; simpl; constructor.
Qed.

(** X2: every buffer in the cache is what the decoder returns for its path. *)
Theorem cache_coherent
    (loadFromFile : string -> option SoundBuffer)
    (cache_begin : gmap string SoundBuffer -> option string)
    (ops : list pop) (p : string) (b : SoundBuffer) :
  soundBuffers (prun loadFromFile cache_begin ops initPlayer) !! p = Some b ->
  loadFromFile p = Some b.
Proof.
  assert (H : forall st,
    (forall q b', soundBuffers st !! q = Some b' -> loadFromFile q = Some b') ->
    forall q b', soundBuffers (prun loadFromFile cache_begin ops st) !! q = Some b' ->
      loadFromFile q = Some b').
  { induction ops as [|o ops IH]; intros st Hc; simpl; [done|].
    apply IH. destruct (pstep_shape loadFromFile cache_begin o st) as (_ & _ & _ & Hb).
    destruct Hb as [-> | (p' & b' & Hl & ->)]; [done|].
    by apply coherent_cache_insert. }
  apply H. intros q b' Hq. simpl in Hq. by rewrite lookup_empty in Hq.
Qed.

(** X3: the cache never holds more than [MAX_CACHE_SIZE] = 100 buffers. *)
Theorem cache_bounded
    (loadFromFile : string -> option SoundBuffer)
    (cache_begin : gmap string SoundBuffer -> option string)
    (Hbegin : begin_in_map cache_begin) (ops : list pop) :
  size (soundBuffers (prun loadFromFile cache_begin ops initPlayer)) <= MAX_CACHE_SIZE.
Proof.
  assert (H : forall st, size (soundBuffers st) <= MAX_CACHE_SIZE ->
    size (soundBuffers (prun loadFromFile cache_begin ops st)) <= MAX_CACHE_SIZE).
  { induction ops as [|o ops IH]; intros st Hs; simpl; [done|].
    apply IH. destruct (pstep_shape loadFromFile cache_begin o st) as (_ & _ & _ & Hb).
    destruct Hb as [-> | (p' & b' & Hl & ->)]; [done|].
    by apply size_cache_insert. }
  apply H. simpl. rewrite map_size_empty. unfold MAX_CACHE_SIZE. lia.
Qed.

(** X4: whatever the calls to [setVolume] and the player's operations, the
    volume stays in [0, 100]: every voice starts at such a volume and every
    [sound->setVolume] call passes one. *)
Theorem volume_in_range
    (loadFromFile : string -> option SoundBuffer)
    (cache_begin : gmap string SoundBuffer -> option string) (ops : list vop) :
  let r := vrun loadFromFile cache_begin ops initPlayer in
  (0 <= volume (fst r) <= 100)%Z /\
  Forall plays_in_range (events (fst r)) /\
  Forall (fun c => 0 <= snd c <= 100)%Z (snd r).
Proof.
  cbv zeta. assert (H : forall st,
    (0 <= volume st <= 100)%Z -> Forall plays_in_range (events st) ->
    let r := vrun loadFromFile cache_begin ops st in
    (0 <= volume (fst r) <= 100)%Z /\
    Forall plays_in_range (events (fst r)) /\
    Forall (fun c => 0 <= snd c <= 100)%Z (snd r)).
  { induction ops as [|[o|v] ops IH]; intros st Hv He; cbv zeta; simpl.
    - split; [done|]. split; [done|constructor].
    - destruct (pstep_shape loadFromFile cache_begin o st) as (Hv' & (e & He' & Hp) & _).
      apply IH; [by rewrite Hv'|]. rewrite He'. apply Forall_app. split; [done|].
      eapply Forall_impl; [exact Hp|]. intros [] Hx; simpl in *; try done. lia.
    - set (vol := if Z.ltb v 0 then 0%Z else if Z.ltb 100 v then 100%Z else v).
      assert (Hvol : (0 <= vol <= 100)%Z)
        by (unfold vol; destruct (Z.ltb_spec v 0); [lia|destruct (Z.ltb_spec 100 v); lia]).
      unfold setVolume. fold vol.
      destruct (IH (mkPlayerState (pendingSounds st) (activeSounds st) (soundBuffers st)
                      (preloadTasks st) vol (next_sound st) (events st)) Hvol He)
        as (H1 & H2 & H3).
      destruct (vrun _ _ ops _) as [st2 calls'] eqn:E. simpl in *.
      split; [done|]. split; [done|]. apply Forall_app. split; [|done].
      apply Forall_forall. intros c Hc.
      apply list_elem_of_In, List.in_map_iff in Hc as (i & <- & _). exact Hvol. }
  apply H; simpl; [lia|constructor].
Qed.

Lemma first_key_in_map : begin_in_map first_key.
Proof.
  intros c Hc. unfold first_key.
  destruct (map_to_list c) as [|[k v] l] eqn:E.
  - apply map_to_list_empty_iff in E. contradiction.
  - exists k. split; [done|]. exists v. apply elem_of_map_to_list. rewrite E. left.
Qed.

Lemma cache_coherent_witness :
  soundBuffers (prun ok_load first_key [PPreload "a.wav"%string true] initPlayer)
    !! "a.wav"%string = Some (mkSoundBuffer 120) /\
  ok_load "a.wav"%string = Some (mkSoundBuffer 120).
Proof.
  split; [vm_compute; reflexivity|].
  apply (cache_coherent ok_load first_key [PPreload "a.wav"%string true]).
  vm_compute; reflexivity.
Defined.

Lemma cache_bounded_witness :
  begin_in_map first_key /\
  size (soundBuffers (prun ok_load first_key
          (map (fun i => PPreload (path_n i) true) (seq 0 101)) initPlayer))
    <= MAX_CACHE_SIZE.
Proof.
  split; [exact first_key_in_map|].
  apply cache_bounded. exact first_key_in_map.
Defined.

(** X5: [preloadSound] returns false exactly for the empty path and for a
    high-priority preload of an uncached path that fails to decode; it
    never touches the queue, the voices, the volume or the sound ids. *)
Theorem preload_result
    (loadFromFile : string -> option SoundBuffer)
    (cache_begin : gmap string SoundBuffer -> option string)
    (p : string) (hp : bool) (st : PlayerState) :
  let r := preloadSound loadFromFile cache_begin p hp st in
  (fst r = false <->
   p = EmptyString \/
   (soundBuffers st !! p = None /\ hp = true /\ loadFromFile p = None)) /\
  pendingSounds (snd r) = pendingSounds st /\
  activeSounds (snd r) = activeSounds st /\
  volume (snd r) = volume st /\ next_sound (snd r) = next_sound st.
Proof.
  cbv zeta. unfold preloadSound.
  destruct (String.eqb_spec p EmptyString) as [->|Hne].
  { simpl. split; [tauto|done]. }
  destruct (soundBuffers st !! p) as [b|] eqn:Hc.
  { simpl. split; [|done]. split; [discriminate|]. intros [?|(? & _)]; congruence. }
  destruct hp.
  - destruct (loadFromFile p) as [b|] eqn:Hl; simpl.
    + split; [|done]. split; [discriminate|]. intros [?|(_ & _ & ?)]; congruence.
    + split; [|done]. split; [tauto|done].
  - simpl. split; [|done]. split; [discriminate|]. intros [?|(_ & ? & _)]; congruence.
Qed.

Lemma delete_last {A} (l : list A) (x : A) : delete (length l) (l ++ [x]) = l.
Proof. induction l as [|y l IH]; simpl; [done|]. by rewrite IH. Qed.

(** X6: a low-priority preload of an uncached path succeeds without
    decoding; running the background task it recorded then decodes the
    file, installs its buffer in the cache and retires the task. *)
Theorem low_preload_then_task
    (loadFromFile : string -> option SoundBuffer)
    (cache_begin : gmap string SoundBuffer -> option string)
    (p : string) (b : SoundBuffer) (st : PlayerState)
    (Hp : p <> EmptyString) (Hmiss : soundBuffers st !! p = None)
    (Hl : loadFromFile p = Some b) :
  let r := preloadSound loadFromFile cache_begin p false st in
  let st2 := runPreloadTask loadFromFile cache_begin (length (preloadTasks st)) (snd r) in
  fst r = true /\ soundBuffers (snd r) = soundBuffers st /\
  events (snd r) = events st /\
  soundBuffers st2 !! p = Some b /\ preloadTasks st2 = preloadTasks st /\
  events st2 = events st ++ [EvDecode p].
Proof.
  cbv zeta. unfold preloadSound.
  destruct (String.eqb_spec p EmptyString) as [->|_]; [done|].
  rewrite Hmiss. simpl. split; [done|]. split; [done|]. split; [done|].
  unfold runPreloadTask. simpl.
  rewrite (list_lookup_middle (preloadTasks st) [] p); [|done]. rewrite Hl. simpl.
  unfold cache_insert. rewrite lookup_insert_eq. rewrite delete_last. done.
Qed.

Lemma low_preload_then_task_witness :
  ("a.wav"%string <> EmptyString /\ soundBuffers initPlayer !! "a.wav"%string = None /\
   ok_load "a.wav"%string = Some (mkSoundBuffer 120)) /\
  let r := preloadSound ok_load first_key "a.wav"%string false initPlayer in
  let st2 := runPreloadTask ok_load first_key (length (preloadTasks initPlayer)) (snd r) in
  fst r = true /\ soundBuffers (snd r) = soundBuffers initPlayer /\
  events (snd r) = events initPlayer /\
  soundBuffers st2 !! "a.wav"%string = Some (mkSoundBuffer 120) /\
  preloadTasks st2 = preloadTasks initPlayer /\
  events st2 = events initPlayer ++ [EvDecode "a.wav"%string].
Proof.
  split; [split; [discriminate|split; reflexivity]|].
  apply low_preload_then_task; [discriminate|reflexivity|reflexivity].
Defined.


(** X8: after [cleanupFinishedSounds] every remaining voice is neither
    stopped nor past its expiration time, the survivors keep their order,
    and a second cleanup with the same answers removes nothing more. *)
Theorem cleanup_live
    (now : Z) (stopped : nat -> bool) (st : PlayerState) :
  let st1 := cleanupFinishedSounds now stopped st in
  activeSounds st1 `sublist_of` activeSounds st /\
  Forall (fun i => stopped (sound i) = false /\ (now < expirationTime i)%Z)
    (activeSounds st1) /\
  cleanupFinishedSounds now stopped st1 = st1.
Proof.
  cbv zeta. unfold cleanupFinishedSounds. simpl. split; [apply sublist_filter|].
  split.
  - apply Forall_forall. intros i Hi. apply list_elem_of_filter in Hi as [Hi _].
    destruct (stopped (sound i)), (Z.leb_spec (expirationTime i) now); simpl in Hi;
      try contradiction. split; [done|lia].
  - unfold set_active. simpl. f_equal. rewrite list_filter_filter.
    apply list_filter_iff. intros i. destruct (stopped (sound i)), (Z.leb (expirationTime i) now); simpl; tauto.
Qed.
End PlayerExtraProofs.

Module HookExtraProofs.
Import Hook HookExt HookExtSpecs ExtScenarios.
Local Open Scope Z_scope.

(** X9: the hook procedure changes nothing and calls nothing for a message
    that is not [HC_ACTION], when no instance is registered, for a message
    other than a key down or up, for an injected key event, and for the
    auto-repeat down of a key already held. *)
Theorem hook_ignored (g : Z -> bool -> string) (ev : HookEvent) (st : HookState)
  (H : nCode ev <> HC_ACTION \/ has_instance st = false \/
       ~ In (wParam ev) [WM_KEYDOWN; WM_SYSKEYDOWN; WM_KEYUP; WM_SYSKEYUP] \/
       Z.land (flags ev) LLKHF_INJECTED <> 0 \/
       ((wParam ev = WM_KEYDOWN \/ wParam ev = WM_SYSKEYDOWN) /\
        to_WORD (vkCode ev) ∈ pressedKeys st)) :
  KeyboardHookProc g ev st = (st, []).
Proof.
  unfold KeyboardHookProc.
  destruct (Z.eqb_spec (nCode ev) HC_ACTION) as [Hn|Hn]; simpl; [|reflexivity].
  destruct (has_instance st) eqn:Hi; simpl; [|reflexivity].
  destruct (shouldProcessKey _ st); simpl; [|reflexivity].
  destruct (Z.eqb_spec (Z.land (flags ev) LLKHF_INJECTED) 0) as [Hj|Hj]; simpl.
  - destruct (Z.eqb_spec (wParam ev) WM_KEYDOWN) as [Hw|Hw];
    [|destruct (Z.eqb_spec (wParam ev) WM_SYSKEYDOWN) as [Hw'|Hw']]; simpl.
    1,2: destruct (bool_decide_reflect (to_WORD (vkCode ev) ∈ pressedKeys st)) as [Hp|Hp];
         [reflexivity|];
         exfalso; destruct H as [H|[H|[H|[H|[_ H]]]]]; try congruence;
         try (apply H; rewrite ?Hw, ?Hw'; simpl; tauto); tauto.
    destruct (Z.eqb_spec (wParam ev) WM_KEYUP) as [Hu|Hu];
    [|destruct (Z.eqb_spec (wParam ev) WM_SYSKEYUP) as [Hu'|Hu']]; simpl.
    1,2: exfalso; destruct H as [H|[H|[H|[H|[[H|H] _]]]]]; try congruence;
         apply H; rewrite ?Hu, ?Hu'; simpl; tauto.
    reflexivity.
  - destruct (_ || _); [reflexivity|]. destruct (_ || _); reflexivity.
Qed.

Lemma hook_ignored_witness :
  let ev := mkHookEvent 0 WM_KEYDOWN 65 LLKHF_INJECTED 0 in
  Z.land (flags ev) LLKHF_INJECTED <> 0 /\
  KeyboardHookProc (fun _ _ => "k.wav"%string) ev initHook = (initHook, []).
Proof.
  cbv zeta. split.
  - intros H. vm_compute in H. discriminate H.
  - apply hook_ignored. right; right; right; left.
    intros H. vm_compute in H. discriminate H.
Defined.

Lemma hrun_cons (g : Z -> bool -> string) (ev : HookEvent) (evs : list HookEvent) (st : HookState) :
  hrun g (ev :: evs) st =
    (fst (hrun g evs (fst (KeyboardHookProc g ev st))),
     (ev, snd (KeyboardHookProc g ev st)) :: snd (hrun g evs (fst (KeyboardHookProc g ev st)))).
Proof. simpl. destruct (KeyboardHookProc g ev st), (hrun g evs _). reflexivity. Qed.

Lemma trim_front_length (n : nat) (l : list Z) : (length (trim_front n l) <= n)%nat.
Proof. unfold trim_front. rewrite length_drop. lia. Qed.

Lemma last_drop_snoc (n : nat) (l : list Z) (x : Z) :
  (n <= length l)%nat -> last (drop n (l ++ [x])) = Some x.
Proof.
  revert n. induction l as [|y l IH]; intros n Hn; simpl in *.
  - replace n with 0%nat by lia. reflexivity.
  - destruct n as [|n]; simpl; [apply (last_snoc x (y :: l))|]. apply IH. lia.
Qed.

(** The effect of one hook call on its state, by the branch it takes. *)
Lemma proc_shape (g : Z -> bool -> string) (ev : HookEvent) (st : HookState) :
  let vk := to_WORD (vkCode ev) in
  KeyboardHookProc g ev st = (st, []) \/
  ((wParam ev = WM_KEYDOWN \/ wParam ev = WM_SYSKEYDOWN) /\
   KeyboardHookProc g ev st =
     handleKeyDown g vk (time ev) (set_pressed ({[vk]} ∪ pressedKeys st) st)) \/
  ((wParam ev = WM_KEYUP \/ wParam ev = WM_SYSKEYUP) /\
   wParam ev <> WM_KEYDOWN /\ wParam ev <> WM_SYSKEYDOWN /\
   KeyboardHookProc g ev st =
     (set_pressed (pressedKeys st ∖ {[vk]}) st,
      handleKeyUp g vk (time ev) (set_pressed (pressedKeys st ∖ {[vk]}) st))).
Proof.
  cbv zeta. unfold KeyboardHookProc.
  destruct (negb (Z.eqb (nCode ev) HC_ACTION) || negb (has_instance st)); [by left|].
  destruct (negb (shouldProcessKey (to_WORD (vkCode ev)) st)); [by left|].
  destruct (Z.eqb_spec (wParam ev) WM_KEYDOWN) as [Hd|Hd];
  [|destruct (Z.eqb_spec (wParam ev) WM_SYSKEYDOWN) as [Hd'|Hd']]; simpl.
  1,2: destruct (negb _); [by left|];
       destruct (bool_decide _); [by left|]; right; left; split; [tauto|done].
  destruct (Z.eqb_spec (wParam ev) WM_KEYUP) as [Hu|Hu];
  [|destruct (Z.eqb_spec (wParam ev) WM_SYSKEYUP) as [Hu'|Hu']]; simpl.
  1,2: destruct (negb _); [by left|]; right; right; split; [tauto|done].
  by left.
Qed.

(** X10: an accepted key release removes the key from the held keys and
    changes nothing else; its only possible call is the key's up sound at
    low priority, and none is made within 20 ms of the key's last accepted
    press. *)
Theorem key_up_effect (g : Z -> bool -> string) (ev : HookEvent) (st : HookState)
  (Hn : nCode ev = HC_ACTION) (Hi : has_instance st = true)
  (Hs : shouldProcessKey (to_WORD (vkCode ev)) st = true)
  (Hw : wParam ev = WM_KEYUP \/ wParam ev = WM_SYSKEYUP)
  (Hj : Z.land (flags ev) LLKHF_INJECTED = 0) :
  let vk := to_WORD (vkCode ev) in
  let r := KeyboardHookProc g ev st in
  fst r = set_pressed (pressedKeys st ∖ {[vk]}) st /\
  (snd r = [] \/ (snd r = [ReqPlay (g vk false) false] /\ g vk false <> EmptyString)) /\
  (forall t, keyTimestamps st !! vk = Some t -> ms_since (time ev) t < 20 -> snd r = []).
Proof.
  cbv zeta. unfold KeyboardHookProc.
  rewrite Hn, Z.eqb_refl, Hi, Hs, Hj. simpl.
  assert (Hw' : (Z.eqb (wParam ev) WM_KEYDOWN || Z.eqb (wParam ev) WM_SYSKEYDOWN) = false /\
                (Z.eqb (wParam ev) WM_KEYUP || Z.eqb (wParam ev) WM_SYSKEYUP) = true)
    by (destruct Hw as [-> | ->]; split; reflexivity).
  destruct Hw' as [-> ->]. simpl. split; [done|]. unfold handleKeyUp. simpl.
  split.
  - destruct (match keyTimestamps st !! _ with Some t => _ | None => true end); [|by left].
    destruct (String.eqb_spec (g (to_WORD (vkCode ev)) false) EmptyString); [by left|by right].
  - intros t Ht Hlt. rewrite Ht. apply Z.ltb_lt in Hlt. rewrite Hlt. reflexivity.
Qed.

Lemma key_up_effect_witness :
  let g := fun (_ : Z) (_ : bool) => "up.wav"%string in
  let ev := mkHookEvent 0 WM_KEYUP 65 0 50000000 in
  (nCode ev = HC_ACTION /\ has_instance initHook = true /\
   shouldProcessKey (to_WORD (vkCode ev)) initHook = true /\
   (wParam ev = WM_KEYUP \/ wParam ev = WM_SYSKEYUP) /\
   Z.land (flags ev) LLKHF_INJECTED = 0) /\
  let vk := to_WORD (vkCode ev) in
  let r := KeyboardHookProc g ev initHook in
  fst r = set_pressed (pressedKeys initHook ∖ {[vk]}) initHook /\
  (snd r = [] \/ (snd r = [ReqPlay (g vk false) false] /\ g vk false <> EmptyString)) /\
  (forall t, keyTimestamps initHook !! vk = Some t -> ms_since (time ev) t < 20 -> snd r = []).
Proof.
  cbv zeta. split.
  - split; [reflexivity|]. split; [reflexivity|]. split; [reflexivity|].
    split; [left; reflexivity|reflexivity].
  - apply key_up_effect; [reflexivity|reflexivity|reflexivity|left; reflexivity|reflexivity].
Defined.

Lemma preload_key_ok (g : Z -> bool -> string) (ev : HookEvent) (k : Z) (hp : bool) :
  (Z.eqb (wParam ev) WM_KEYDOWN || Z.eqb (wParam ev) WM_SYSKEYDOWN) = true ->
  Forall (req_ok g ev) (preload_key g k hp).
Proof.
  intros Hd. unfold preload_key.
  destruct (String.eqb_spec (g k true) EmptyString), (String.eqb_spec (g k false) EmptyString);
    simpl; repeat constructor; simpl; rewrite ?Hd; done.
Qed.

Lemma predicted_ok (g : Z -> bool -> string) (ev : HookEvent) (vk : Z) (st : HookState) :
  (Z.eqb (wParam ev) WM_KEYDOWN || Z.eqb (wParam ev) WM_SYSKEYDOWN) = true ->
  Forall (req_ok g ev) (preloadPredictedKeys g vk st).
Proof.
  intros Hd. destruct (HookProofs.preloadPredictedKeys_take g vk st) as (ks & _ & _ & _ & ->).
  induction ks as [|k ks IH]; simpl; [constructor|].
  apply Forall_app. split; [by apply preload_key_ok|exact IH].
Qed.

(** X11: every call the hook procedure makes names a non-empty file; a play
    call plays the catalogue's sound of the event's key, at high priority
    for a key press and at low priority for a release; preloads come only
    from key presses. *)
Theorem hook_requests_ok (g : Z -> bool -> string) (ev : HookEvent) (st : HookState) :
  Forall (req_ok g ev) (snd (KeyboardHookProc g ev st)).
Proof.
  destruct (proc_shape g ev st) as [-> | [[Hw ->] | (Hw & Hd1 & Hd2 & ->)]]; simpl.
  - constructor.
  - assert (Hd : (Z.eqb (wParam ev) WM_KEYDOWN || Z.eqb (wParam ev) WM_SYSKEYDOWN) = true)
      by (destruct Hw as [-> | ->]; reflexivity).
    unfold handleKeyDown.
    set (st0 := set_pressed _ st).
    match goal with |- context [let '(_, _) := ?m in _] => set (M := m) end.
    assert (HM : Forall (req_ok g ev) (snd M)).
    { unfold M. destruct (last _); [|constructor].
      destruct (Z.ltb 0 _); [|constructor]. by apply predicted_ok. }
    destruct M as [st2 pre]. simpl in HM |- *.
    apply Forall_app. split; [exact HM|].
    destruct (shouldPlayDown _ _ _); [|constructor].
    destruct (String.eqb_spec (g (to_WORD (vkCode ev)) true) EmptyString); [constructor|].
    repeat constructor; [done|by rewrite Hd].
  - assert (Hd : (Z.eqb (wParam ev) WM_KEYDOWN || Z.eqb (wParam ev) WM_SYSKEYDOWN) = false).
    { apply orb_false_intro; apply Z.eqb_neq; assumption. }
    unfold handleKeyUp.
    destruct (match _ with Some t => _ | None => true end); [|constructor].
    destruct (String.eqb_spec (g (to_WORD (vkCode ev)) false) EmptyString); [constructor|].
    repeat constructor; [done|by rewrite Hd].
Qed.

Lemma step_learning (g : Z -> bool -> string) (ev : HookEvent) (st : HookState) :
  let st' := fst (KeyboardHookProc g ev st) in
  latencyOptimizationLevel st' = latencyOptimizationLevel st /\
  ((recentKeys st' = recentKeys st /\ keyFollowers st' = keyFollowers st) \/
   (0 < latencyOptimizationLevel st /\
    recentKeys st' = trim_front KEY_HISTORY_LENGTH (recentKeys st ++ [to_WORD (vkCode ev)]) /\
    keyFollowers st' =
      match last (recentKeys st) with
      | Some prev =>
          <[prev := {[to_WORD (vkCode ev)]} ∪ default ∅ (keyFollowers st !! prev)]>
            (keyFollowers st)
      | None => keyFollowers st
      end)).
Proof.
  cbv zeta.
  destruct (proc_shape g ev st) as [-> | [[_ ->] | (_ & _ & _ & ->)]]; simpl.
  - split; [done|by left].
  - destruct (HookProofs.handleKeyDown_spec g (to_WORD (vkCode ev)) (time ev)
               (set_pressed ({[to_WORD (vkCode ev)]} ∪ pressedKeys st) st))
      as (_ & -> & -> & -> & _).
    simpl. split; [done|].
    destruct (Z.ltb_spec 0 (latencyOptimizationLevel st)).
    + right. split; [done|]. split; [done|]. destruct (last (recentKeys st)); done.
    + left. split; [done|]. destruct (last (recentKeys st)); done.
  - split; [done|by left].
Qed.

(** X12: the key history never holds more than [KEY_HISTORY_LENGTH] = 5 keys,
    whatever the hook calls and the changes of the optimization level. *)
Theorem history_bounded (g : Z -> bool -> string) (st : HookState)
  (H : (length (recentKeys st) <= KEY_HISTORY_LENGTH)%nat) :
  (forall evs, (length (recentKeys (fst (hrun g evs st))) <= KEY_HISTORY_LENGTH)%nat) /\
  (forall l, (length (recentKeys (fst (setLatencyOptimization g l st))) <= KEY_HISTORY_LENGTH)%nat).
Proof.
  split.
  - intros evs. revert st H. induction evs as [|ev evs IH]; intros st H; [done|].
    rewrite hrun_cons. simpl. apply IH.
    destruct (step_learning g ev st) as (_ & [[-> _] | (_ & -> & _)]);
      [done|apply trim_front_length].
  - intros l. unfold setLatencyOptimization.
    destruct (Z.eqb _ 0); [simpl; lia|].
    destruct (Z.eqb _ 1); [simpl; pose proof (trim_front_length 3 (recentKeys st)); unfold KEY_HISTORY_LENGTH in *; lia|].
    destruct (Z.eqb _ 2); done.
Qed.

Lemma history_bounded_witness :
  (length (recentKeys initHook) <= KEY_HISTORY_LENGTH)%nat /\
  (forall evs, (length (recentKeys (fst (hrun (fun _ _ => "k.wav"%string) evs initHook)))
                  <= KEY_HISTORY_LENGTH)%nat) /\
  (forall l, (length (recentKeys (fst (setLatencyOptimization (fun _ _ => "k.wav"%string) l initHook)))
                  <= KEY_HISTORY_LENGTH)%nat).
Proof.
  split; [unfold KEY_HISTORY_LENGTH; simpl; lia|].
  apply history_bounded. unfold KEY_HISTORY_LENGTH; simpl; lia.
Defined.

Lemma handleKeyDown_no_learning_out (g : Z -> bool -> string) (vk now : Z) (st : HookState) :
  latencyOptimizationLevel st <= 0 ->
  forall p h, ReqPreload p h ∉ snd (handleKeyDown g vk now st).
Proof.
  intros HL p h. unfold handleKeyDown. cbn [latencyOptimizationLevel set_timestamps].
  assert (Hlt : Z.ltb 0 (latencyOptimizationLevel st) = false) by (apply Z.ltb_ge; lia).
  rewrite Hlt. destruct (last _); simpl;
  destruct (shouldPlayDown vk now st); try destruct (String.eqb _ EmptyString); simpl;
  rewrite list_elem_of_In; simpl; intuition discriminate.
Qed.

(** X13: setting the optimization level to 0 (or below) clears the key
    history and the follower map and preloads nothing; from then on the
    hook procedure never learns a follower, never records history and never
    preloads. *)
Theorem level_zero_no_prediction (g : Z -> bool -> string) (l : Z) (st : HookState)
  (Hl : l <= 0) (evs : list HookEvent) :
  let r := setLatencyOptimization g l st in
  let h := hrun g evs (fst r) in
  snd r = [] /\ latencyOptimizationLevel (fst r) = 0 /\
  recentKeys (fst h) = [] /\ keyFollowers (fst h) = ∅ /\
  Forall (fun e => forall p hp, ReqPreload p hp ∉ snd e) (snd h).
Proof.
  cbv zeta. unfold setLatencyOptimization.
  replace (Z.max 0 (Z.min l 3)) with 0 by lia. simpl.
  split; [done|]. split; [done|].
  assert (G : forall st0, latencyOptimizationLevel st0 = 0 ->
    recentKeys st0 = [] -> keyFollowers st0 = ∅ ->
    recentKeys (fst (hrun g evs st0)) = [] /\ keyFollowers (fst (hrun g evs st0)) = ∅ /\
    Forall (fun e => forall p hp, ReqPreload p hp ∉ snd e) (snd (hrun g evs st0))).
  { induction evs as [|ev evs IH]; intros st0 HL HR HF; [simpl; done|].
    rewrite hrun_cons. simpl.
    destruct (step_learning g ev st0) as (HL' & [[HR' HF'] | (Hc & _)]); [|lia].
    destruct (IH (fst (KeyboardHookProc g ev st0))) as (? & ? & ?); [congruence..|].
    split; [done|]. split; [done|]. constructor; [|done].
    simpl. destruct (proc_shape g ev st0) as [-> | [[_ ->] | (_ & _ & _ & ->)]].
    - intros p hp ?%elem_of_nil. done.
    - apply handleKeyDown_no_learning_out. simpl. lia.
    - intros p hp. simpl. unfold handleKeyUp.
      destruct (match _ with Some t => _ | None => true end); [|by intros ?%elem_of_nil].
      destruct (String.eqb _ EmptyString); [by intros ?%elem_of_nil|].
      intros ?%list_elem_of_singleton. discriminate. }
  by apply G.
Qed.

Lemma level_zero_no_prediction_witness :
  0 <= 0 /\
  let r := setLatencyOptimization (fun _ _ => "k.wav"%string) 0 initHook in
  let h := hrun (fun _ _ => "k.wav"%string) [mkHookEvent 0 WM_KEYDOWN 65 0 0] (fst r) in
  snd r = [] /\ latencyOptimizationLevel (fst r) = 0 /\
  recentKeys (fst h) = [] /\ keyFollowers (fst h) = ∅ /\
  Forall (fun e => forall p hp, ReqPreload p hp ∉ snd e) (snd h).
Proof. split; [lia|]. apply level_zero_no_prediction. lia. Defined.

Lemma handleKeyDown_pressed (g : Z -> bool -> string) (vk now : Z) (st : HookState) :
  pressedKeys (fst (handleKeyDown g vk now st)) = pressedKeys st.
Proof.
  unfold handleKeyDown. cbn [recentKeys latencyOptimizationLevel set_timestamps].
  destruct (last (recentKeys st)); destruct (Z.ltb 0 (latencyOptimizationLevel st)); reflexivity.
Qed.

(** X14: an accepted key press at a positive optimization level records the
    key as a follower of the previous key in the history and makes it the
    newest key of the history. *)
Theorem down_learns_follower (g : Z -> bool -> string) (ev : HookEvent) (st : HookState)
  (prev : Z)
  (Hn : nCode ev = HC_ACTION) (Hi : has_instance st = true)
  (Hs : shouldProcessKey (to_WORD (vkCode ev)) st = true)
  (Hw : wParam ev = WM_KEYDOWN \/ wParam ev = WM_SYSKEYDOWN)
  (Hj : Z.land (flags ev) LLKHF_INJECTED = 0)
  (Hp : to_WORD (vkCode ev) ∉ pressedKeys st)
  (Hlast : last (recentKeys st) = Some prev)
  (HL : 0 < latencyOptimizationLevel st) :
  let st' := fst (KeyboardHookProc g ev st) in
  to_WORD (vkCode ev) ∈ default ∅ (keyFollowers st' !! prev) /\
  last (recentKeys st') = Some (to_WORD (vkCode ev)) /\
  to_WORD (vkCode ev) ∈ pressedKeys st'.
Proof.
  cbv zeta. unfold KeyboardHookProc.
  rewrite Hn, Z.eqb_refl, Hi, Hs, Hj. simpl.
  assert (Hw' : (Z.eqb (wParam ev) WM_KEYDOWN || Z.eqb (wParam ev) WM_SYSKEYDOWN) = true)
    by (destruct Hw as [-> | ->]; reflexivity).
  rewrite Hw'. simpl. rewrite bool_decide_eq_false_2 by exact Hp. simpl.
  destruct (HookProofs.handleKeyDown_spec g (to_WORD (vkCode ev)) (time ev)
               (set_pressed ({[to_WORD (vkCode ev)]} ∪ pressedKeys st) st))
      as (_ & HR & HF & _). cbn [recentKeys keyFollowers latencyOptimizationLevel set_pressed] in HR, HF.
  rewrite HF, HR, Hlast. assert (Hlt : Z.ltb 0 (latencyOptimizationLevel st) = true) by (apply Z.ltb_lt; lia).
  rewrite Hlt. split; [|split].
  - rewrite lookup_insert_eq. cbn [default]. set_solver.
  - unfold trim_front. apply last_drop_snoc. rewrite length_app. unfold KEY_HISTORY_LENGTH. simpl. lia.
  - rewrite handleKeyDown_pressed. cbn [pressedKeys set_pressed]. set_solver.
Qed.

Lemma down_learns_follower_witness :
  let g := fun (_ : Z) (_ : bool) => "k.wav"%string in
  let ev := mkHookEvent 0 WM_KEYDOWN 66 0 0 in
  (nCode ev = HC_ACTION /\ has_instance after_A = true /\
   shouldProcessKey (to_WORD (vkCode ev)) after_A = true /\
   (wParam ev = WM_KEYDOWN \/ wParam ev = WM_SYSKEYDOWN) /\
   Z.land (flags ev) LLKHF_INJECTED = 0 /\ (to_WORD (vkCode ev) ∉ pressedKeys after_A) /\
   last (recentKeys after_A) = Some 65 /\ 0 < latencyOptimizationLevel after_A) /\
  let st' := fst (KeyboardHookProc g ev after_A) in
  to_WORD (vkCode ev) ∈ default ∅ (keyFollowers st' !! 65) /\
  last (recentKeys st') = Some (to_WORD (vkCode ev)) /\
  to_WORD (vkCode ev) ∈ pressedKeys st'.
Proof.
  cbv zeta. split.
  - split; [reflexivity|]. split; [reflexivity|]. split; [reflexivity|].
    split; [left; reflexivity|]. split; [reflexivity|]. split; [set_solver|].
    split; [reflexivity|]. unfold after_A; simpl; lia.
  - apply down_learns_follower; [reflexivity|reflexivity|reflexivity|left; reflexivity
      |reflexivity|unfold after_A; simpl; set_solver|reflexivity|unfold after_A; simpl; lia].
Defined.

(** X15: the hook procedure never forgets a learnt follower: the follower set
    of every key only grows. *)
Theorem followers_grow (g : Z -> bool -> string) (evs : list HookEvent) (st : HookState)
  (k x : Z) (Hx : x ∈ default ∅ (keyFollowers st !! k)) :
  x ∈ default ∅ (keyFollowers (fst (hrun g evs st)) !! k).
Proof.
  revert st Hx. induction evs as [|ev evs IH]; intros st Hx; [exact Hx|].
  rewrite hrun_cons. simpl. apply IH.
  destruct (step_learning g ev st) as (_ & [[_ ->] | (_ & _ & ->)]); [exact Hx|].
  destruct (last (recentKeys st)) as [prev|]; [|exact Hx].
  destruct (decide (k = prev)) as [->|Hne].
  - rewrite lookup_insert_eq. cbn [default]. set_solver.
  - by rewrite lookup_insert_ne by congruence.
Qed.

Lemma followers_grow_witness :
  66 ∈ default ∅ (keyFollowers (mkHookState ∅ ∅ [] followers_AB 2 false ∅ true) !! 65) /\
  66 ∈ default ∅ (keyFollowers (fst (hrun (fun _ _ => "k.wav"%string)
         [mkHookEvent 0 WM_KEYDOWN 67 0 0; mkHookEvent 0 WM_KEYDOWN 65 0 100000000]
         (mkHookState ∅ ∅ [] followers_AB 2 false ∅ true))) !! 65).
Proof.
  assert (H : 66 ∈ default ∅ (keyFollowers (mkHookState ∅ ∅ [] followers_AB 2 false ∅ true) !! 65))
    by (unfold followers_AB; cbn [keyFollowers]; rewrite lookup_insert_eq; cbn [default]; set_solver).
  split; [exact H|]. apply followers_grow. exact H.
Defined.

(** X16: the filter operations and [shouldProcessKey]: a key added to the
    filter is refused while filtering is enabled and accepted again once
    removed; adding or removing one key leaves the answer for every other
    key unchanged; with filtering disabled every key is accepted. *)
Theorem filter_roundtrip (vk : Z) (st : HookState) :
  (keyFilteringEnabled st = true -> shouldProcessKey vk (addKeyToFilter vk st) = false) /\
  shouldProcessKey vk (removeKeyFromFilter vk (addKeyToFilter vk st)) = true /\
  (forall k, k <> vk ->
     shouldProcessKey k (addKeyToFilter vk st) = shouldProcessKey k st /\
     shouldProcessKey k (removeKeyFromFilter vk st) = shouldProcessKey k st) /\
  (forall k, shouldProcessKey k (setKeyFilteringEnabled false st) = true) /\
  (forall k, shouldProcessKey k (setKeyFilteringEnabled true st) =
             negb (bool_decide (k ∈ filteredKeys st))).
Proof.
  unfold shouldProcessKey, addKeyToFilter, removeKeyFromFilter, setKeyFilteringEnabled; simpl.
  split; [|split; [|split; [|split]]].
  - intros ->. simpl. rewrite bool_decide_eq_true_2 by set_solver. reflexivity.
  - destruct (keyFilteringEnabled st); [|reflexivity]. simpl.
    rewrite bool_decide_eq_false_2 by set_solver. reflexivity.
  - intros k Hk. destruct (keyFilteringEnabled st); [|done]. simpl.
    split; f_equal; apply bool_decide_ext; set_solver.
  - done.
  - done.
Qed.


End HookExtraProofs.

Module SoundsProofs.
Import Sounds SoundsSpecs.
Local Open Scope Z_scope.

(** X18: [addKeyMapping] then [getKeyTypeForVkCode]: the mapped key answers
    the new type and every other key keeps its type. *)
Theorem key_mapping_roundtrip (vk k : Z) (t : KeyType) (sm : SoundManager) :
  getKeyTypeForVkCode vk (addKeyMapping vk t sm) = t /\
  (k <> vk -> getKeyTypeForVkCode k (addKeyMapping vk t sm) = getKeyTypeForVkCode k sm).
Proof.
  unfold getKeyTypeForVkCode, addKeyMapping; simpl.
  rewrite lookup_insert_eq. split; [done|]. intros Hk. by rewrite lookup_insert_ne by congruence.
Qed.

Lemma load_all_fst (scanDir : string -> DirScan) (folder : string)
    (cats : KeyType -> option SoundCategory) :
  fst (load_all scanDir folder cats) =
    existsb (fun tn => snd (loadSoundCategory scanDir folder (snd tn))) categoryNames.
Proof.
  unfold load_all, categoryNames. simpl.
  destruct (loadSoundCategory scanDir folder "alpha"%string) as [c1 r1].
  destruct (loadSoundCategory scanDir folder "alt"%string) as [c2 r2].
  destruct (loadSoundCategory scanDir folder "enter"%string) as [c3 r3].
  destruct (loadSoundCategory scanDir folder "space"%string) as [c4 r4].
  destruct (loadSoundCategory scanDir folder "other"%string) as [c5 r5].
  simpl. by rewrite !orb_assoc, orb_false_r.
Qed.

Lemma load_all_snd (scanDir : string -> DirScan) (folder : string)
    (cats : KeyType -> option SoundCategory) (t : KeyType) (name : string) :
  In (t, name) categoryNames ->
  snd (load_all scanDir folder cats) t = Some (fst (loadSoundCategory scanDir folder name)).
Proof.
  unfold load_all, categoryNames. simpl.
  destruct (loadSoundCategory scanDir folder "alpha"%string) as [c1 r1] eqn:E1.
  destruct (loadSoundCategory scanDir folder "alt"%string) as [c2 r2] eqn:E2.
  destruct (loadSoundCategory scanDir folder "enter"%string) as [c3 r3] eqn:E3.
  destruct (loadSoundCategory scanDir folder "space"%string) as [c4 r4] eqn:E4.
  destruct (loadSoundCategory scanDir folder "other"%string) as [c5 r5] eqn:E5.
  simpl. intros [H|[H|[H|[H|[H|[]]]]]]; injection H as <- <-;
    rewrite ?E1, ?E2, ?E3, ?E4, ?E5; reflexivity.
Qed.

(** X19: [loadSounds] on a folder that does not exist fails and changes
    nothing. On an existing folder it succeeds exactly when one category
    found a file; every category is reloaded from scratch (what was loaded
    before does not matter); the alpha category is the loaded one or, when
    that is empty, the loaded "other" category, so afterwards alpha is
    empty only if "other" is empty too. *)
Theorem loadSounds_spec (scanDir : string -> DirScan) (pathExists : string -> bool)
    (sm : SoundManager) :
  let r := loadSounds scanDir pathExists sm in
  let folder := folderPath_ sm in
  (pathExists folder = false -> r = (false, sm)) /\
  (pathExists folder = true ->
   fst r = existsb (fun tn => snd (loadSoundCategory scanDir folder (snd tn))) categoryNames /\
   folderPath_ (snd r) = folder /\ keyMappings_ (snd r) = keyMappings_ sm /\
   (forall t name, In (t, name) categoryNames -> t <> ALPHA ->
      categories_ (snd r) t = Some (fst (loadSoundCategory scanDir folder name))) /\
   (let ca := fst (loadSoundCategory scanDir folder "alpha"%string) in
    let co := fst (loadSoundCategory scanDir folder "other"%string) in
    categories_ (snd r) ALPHA = Some (if cat_empty ca then co else ca)) /\
   exists ca co, categories_ (snd r) ALPHA = Some ca /\ categories_ (snd r) OTHER = Some co /\
     (cat_empty ca = true -> cat_empty co = true)).
Proof.
  cbv zeta. unfold loadSounds. split.
  { intros ->. reflexivity. }
  intros Hp. rewrite Hp. simpl.
  set (cleared := fun t => option_map (fun _ => emptyCategory) (categories_ sm t)).
  pose proof (load_all_fst scanDir (folderPath_ sm) cleared) as Hf.
  pose proof (load_all_snd scanDir (folderPath_ sm) cleared) as Hs.
  destruct (load_all scanDir (folderPath_ sm) cleared) as [any cats]. simpl in Hf, Hs.
  assert (HA := Hs ALPHA "alpha"%string ltac:(simpl; tauto)).
  assert (HO := Hs OTHER "other"%string ltac:(simpl; tauto)).
  rewrite HA, HO. simpl.
  set (ca := fst (loadSoundCategory scanDir (folderPath_ sm) "alpha"%string)) in *.
  set (co := fst (loadSoundCategory scanDir (folderPath_ sm) "other"%string)) in *.
  split; [done|]. split; [done|]. split; [done|].
  assert (Hne : forall t, t <> ALPHA ->
    (if is_empty_list (down ca) && is_empty_list (up ca) then
       if negb (is_empty_list (down co)) || negb (is_empty_list (up co))
       then update_category ALPHA co cats else cats
     else cats) t = cats t).
  { intros t Ht. destruct (is_empty_list (down ca) && is_empty_list (up ca)); [|done].
    destruct (negb (is_empty_list (down co)) || negb (is_empty_list (up co))); [|done].
    unfold update_category. destruct (decide (t = ALPHA)); [contradiction|reflexivity]. }
  split; [intros t name Hin Ht; rewrite Hne by done; by apply Hs|].
  assert (Hal : (if is_empty_list (down ca) && is_empty_list (up ca) then
       if negb (is_empty_list (down co)) || negb (is_empty_list (up co))
       then update_category ALPHA co cats else cats
     else cats) ALPHA = Some (if cat_empty ca then co else ca)).
  { unfold cat_empty. destruct (is_empty_list (down ca) && is_empty_list (up ca)) eqn:Ea; [|done].
    destruct (negb (is_empty_list (down co)) || negb (is_empty_list (up co))) eqn:Eo.
    - unfold update_category. destruct (decide (ALPHA = ALPHA)); [|contradiction].
      destruct ca as [[|] [|]], co as [[|] [|]]; simpl in *; done.
    - rewrite HA. f_equal.
      destruct ca as [[|] [|]], co as [[|] [|]]; simpl in *; done. }
  split; [exact Hal|].
  exists (if cat_empty ca then co else ca), co. split; [exact Hal|].
  split; [rewrite Hne by discriminate; exact HO|].
  destruct (cat_empty ca) eqn:Ec; simpl; [done|]. rewrite Ec. discriminate.
Qed.

Lemma loadSounds_spec_witness :
  let scan := fun (p : string) => DirFiles [(p ++ "/k.mp3")%string] in
  let r := loadSounds scan (fun _ => true) (newSoundManager "pack"%string) in
  fst r = true /\ categories_ (snd r) ALPHA =
    Some (mkSoundCategory ["pack/alpha/down/k.mp3"%string] ["pack/alpha/up/k.mp3"%string]).
Proof.
  cbv zeta.
  destruct (loadSounds_spec (fun p => DirFiles [(p ++ "/k.mp3")%string]) (fun _ => true)
              (newSoundManager "pack"%string)) as [_ H].
  destruct (H eq_refl) as (H1 & _ & _ & _ & H5 & _).
  rewrite H1, H5. split; reflexivity.
Defined.

Lemma loadSounds_present (scanDir : string -> DirScan) (pathExists : string -> bool)
    (sm : SoundManager) :
  all_present sm -> all_present (snd (loadSounds scanDir pathExists sm)).
Proof.
  intros Hp t.
  destruct (loadSounds_spec scanDir pathExists sm) as [H0 H1].
  destruct (pathExists (folderPath_ sm)) eqn:E.
  - destruct (H1 eq_refl) as (_ & _ & _ & Hn & Ha & _).
    destruct (decide (t = ALPHA)) as [->|Ht]; [rewrite Ha; eauto|].
    destruct t; [done| | | |].
    + rewrite (Hn ALT "alt"%string ltac:(simpl; tauto) Ht); eauto.
    + rewrite (Hn ENTER "enter"%string ltac:(simpl; tauto) Ht); eauto.
    + rewrite (Hn SPACE "space"%string ltac:(simpl; tauto) Ht); eauto.
    + rewrite (Hn OTHER "other"%string ltac:(simpl; tauto) Ht); eauto.
  - by rewrite (H0 eq_refl).
Qed.

(** X20: every category stays present whatever the calls made on the
    manager, so [getRandomSoundForKey] always finds the key's own category
    and its fallback to alpha never runs. *)
Theorem categories_present (scanDir : string -> DirScan) (pathExists : string -> bool)
    (folder : string) (ops : list smop) (t : KeyType) :
  is_Some (categories_ (smrun scanDir pathExists ops (newSoundManager folder)) t).
Proof.
  assert (G : forall sm, all_present sm -> all_present (smrun scanDir pathExists ops sm)).
  { induction ops as [|[|f|vk k] ops IH]; intros sm Hp; simpl; [done| | |];
      apply IH; [by apply loadSounds_present|exact Hp|exact Hp]. }
  apply G. intros []; unfold newSoundManager; simpl; eauto.
Qed.

(** X21: with a random draw in range, [getRandomSoundForKey] on a manager
    built by the application's calls answers from the key's own category:
    the empty string when its list for the event is empty, otherwise one of
    the files of that list. *)
Theorem random_sound_in_category (scanDir : string -> DirScan)
    (pathExists : string -> bool) (pick : nat -> nat)
    (Hpick : forall n, (0 < n)%nat -> (pick n < n)%nat)
    (folder : string) (ops : list smop) (vk : Z) (keyDown : bool) :
  let sm := smrun scanDir pathExists ops (newSoundManager folder) in
  exists c, categories_ sm (getKeyTypeForVkCode vk sm) = Some c /\
    let sounds := if keyDown then down c else up c in
    (sounds = [] -> getRandomSoundForKey pick vk keyDown sm = EmptyString) /\
    (sounds <> [] -> In (getRandomSoundForKey pick vk keyDown sm) sounds).
Proof.
  cbv zeta.
  generalize (categories_present scanDir pathExists folder ops).
  generalize (smrun scanDir pathExists ops (newSoundManager folder)). intros sm Hall.
  destruct (Hall (getKeyTypeForVkCode vk sm)) as [c Hc].
  exists c. split; [exact Hc|]. unfold getRandomSoundForKey. cbv zeta. rewrite Hc.
  destruct (if keyDown then down c else up c) as [|s ss] eqn:Es; split; try done.
  intros _. apply nth_In. apply Hpick. simpl. lia.
Qed.

Lemma random_sound_in_category_witness :
  (forall n, (0 < n)%nat -> ((fun _ => 0%nat) n < n)%nat) /\
  let scan := fun (p : string) => DirFiles [(p ++ "/k.mp3")%string] in
  let sm := smrun scan (fun _ => true) [SMLoad] (newSoundManager "pack"%string) in
  exists c, categories_ sm (getKeyTypeForVkCode 65 sm) = Some c /\
    let sounds := down c in
    (sounds = [] -> getRandomSoundForKey (fun _ => 0%nat) 65 true sm = EmptyString) /\
    (sounds <> [] -> In (getRandomSoundForKey (fun _ => 0%nat) 65 true sm) sounds).
Proof.
  assert (Hp : forall n, (0 < n)%nat -> ((fun _ => 0%nat) n < n)%nat) by (intros n H; simpl; lia).
  split; [exact Hp|].
  exact (random_sound_in_category (fun p => DirFiles [(p ++ "/k.mp3")%string]) (fun _ => true)
           (fun _ => 0%nat) Hp "pack"%string [SMLoad] 65 true).
Defined.
End SoundsProofs.
